(** * Modulo-2 division, syndrome computation and the single-flip decoder

    A shallow embedding of the computational kernel of [app.py]
    ([xor_division], [compute_syndrome], [simple_berlekamp_like_decoder])
    together with the properties its specification states about it.

    Python lists of integers are [list Z]; an index that is out of range
    raises [IndexError], which is modelled by the [result] type.  The
    first part of the file is the value-level model; the second part
    ([Module Heap]) runs the same code over a store of list objects, so
    that copying, aliasing and in-place update are visible. *)

From stdpp Require Import gmap list strings pretty.

(** ** Results of fallible Python code *)

Inductive result (A : Type) : Type :=
| Ok (a : A)
| IndexError.
Arguments Ok {A} a.
Arguments IndexError {A}.

#[global] Instance result_ret : MRet result := λ A a, Ok a.
#[global] Instance result_bind : MBind result := λ A B f m,
  match m with
  | Ok a => f a
  | IndexError => IndexError
  end.

(** ** Python list primitives on values *)

(** [len(l)] as a Python integer. *)
Definition len (l : list Z) : Z := Z.of_nat (length l).

(** [l[i]] for an index [i >= 0]. *)
Definition py_get (l : list Z) (i : nat) : result Z :=
  match l !! i with
  | Some x => Ok x
  | None => IndexError
  end.

(** [l[i] = v] for an index [i >= 0]. *)
Definition py_set (l : list Z) (i : nat) (v : Z) : result (list Z) :=
  if decide (i < length l) then Ok (<[i:=v]> l) else IndexError.

(** [range(n)]: empty when [n <= 0]. *)
Definition py_range (n : Z) : list nat := seq 0 (Z.to_nat n).

(** [l[start:]]: a negative [start] counts from the end, and both ends
    are clamped to the list. *)
Definition py_slice_from (start : Z) (l : list Z) : list Z :=
  let n := len l in
  let s := if (start <? 0)%Z then Z.max (n + start) 0 else Z.min start n in
  drop (Z.to_nat s) l.

(** [for x in xs: s = body(x, s)], stopping at the first exception. *)
Fixpoint for_in {S : Type} (xs : list nat) (body : nat → S → result S)
    (s : S) : result S :=
  match xs with
  | [] => Ok s
  | x :: xs' => s' ← body x s; for_in xs' body s'
  end.

(** [all(s == 0 for s in l)] *)
Definition all_zero (l : list Z) : bool := forallb (λ s, (s =? 0)%Z) l.

(** ** The kernel *)

(** [dividend[i + j] ^= divisor[j]] *)
Definition xor_step (divisor : list Z) (i j : nat) (dividend : list Z)
    : result (list Z) :=
  x ← py_get dividend (i + j);
  y ← py_get divisor j;
  py_set dividend (i + j) (Z.lxor x y).

(** The body of the outer loop of [xor_division]. *)
Definition xor_row (divisor : list Z) (i : nat) (dividend : list Z)
    : result (list Z) :=
  x ← py_get dividend i;
  if (x =? 1)%Z
  then for_in (py_range (len divisor)) (xor_step divisor i) dividend
  else Ok dividend.

(** The working copy after the division pass. *)
Definition xor_pass (dividend divisor : list Z) : result (list Z) :=
  for_in (py_range (len dividend - len divisor + 1)) (xor_row divisor) dividend.

Definition xor_division (dividend divisor : list Z) : result (list Z) :=
  dividend ← xor_pass dividend divisor;
  Ok (py_slice_from (- (len divisor - 1)) dividend).

Definition compute_syndrome (received generator : list Z) : result (list Z) :=
  xor_division received generator.

Definition msg_no_error : string := "No error detected".
Definition msg_corrected (i : nat) : string :=
  "Single-bit error corrected at position " +:+ pretty i.
Definition msg_unable : string := "Unable to correct (multiple errors)".

(** [test = received.copy(); test[i] ^= 1] *)
Definition flip_bit (received : list Z) (i : nat) : result (list Z) :=
  x ← py_get received i;
  py_set received i (Z.lxor x 1).

(** The [for i in range(len(received))] loop of the decoder, with its
    early return. *)
Fixpoint flip_search (generator received : list Z) (indices : list nat)
    : result (list Z * string) :=
  match indices with
  | [] => Ok (received, msg_unable)
  | i :: indices' =>
      test ← flip_bit received i;
      s ← compute_syndrome test generator;
      if all_zero s then Ok (test, msg_corrected i)
      else flip_search generator received indices'
  end.

(** [generator] is a module-level variable of the script, read by the
    decoder; here it is the first argument. *)
Definition simple_berlekamp_like_decoder (generator received syndrome : list Z)
    : result (list Z * string) :=
  if all_zero syndrome then Ok (received, msg_no_error)
  else flip_search generator received (py_range (len received)).

(** ** The same code over a store of list objects

    A Python list is a mutable object reached through a reference.  The
    store maps references to the current contents; [copy] and slicing
    allocate, item assignment updates in place.  A computation returns an
    outcome together with the store it leaves behind, also when it raises. *)

Module Heap.

Abbreviation loc := positive.
Abbreviation store := (gmap positive (list Z)).

Inductive outcome (A : Type) : Type :=
| Return (a : A)
| Raise          (* IndexError *)
| Dangling.      (* a reference to no object: no Python program gets here *)
Arguments Return {A} a.
Arguments Raise {A}.
Arguments Dangling {A}.

Definition M (A : Type) : Type := store → outcome A * store.

#[global] Instance M_ret : MRet M := λ A a σ, (Return a, σ).
#[global] Instance M_bind : MBind M := λ A B f m σ,
  match m σ with
  | (Return a, σ') => f a σ'
  | (Raise, σ') => (Raise, σ')
  | (Dangling, σ') => (Dangling, σ')
  end.

(** The outcome that corresponds to a value-level result. *)
Definition of_result {A : Type} (r : result A) : outcome A :=
  match r with
  | Ok a => Return a
  | IndexError => Raise
  end.

(** [l.copy()] *)
Definition list_copy (l : loc) : M loc := λ σ,
  match σ !! l with
  | Some v => let l' := fresh (dom σ) in (Return l', <[l':=v]> σ)
  | None => (Dangling, σ)
  end.

(** [len(l)] *)
Definition list_len (l : loc) : M Z := λ σ,
  match σ !! l with
  | Some v => (Return (len v), σ)
  | None => (Dangling, σ)
  end.

(** [l[i]] *)
Definition list_getitem (l : loc) (i : nat) : M Z := λ σ,
  match σ !! l with
  | Some v => (of_result (py_get v i), σ)
  | None => (Dangling, σ)
  end.

(** [l[i] = x] *)
Definition list_setitem (l : loc) (i : nat) (x : Z) : M unit := λ σ,
  match σ !! l with
  | Some v =>
      match py_set v i x with
      | Ok v' => (Return (), <[l:=v']> σ)
      | IndexError => (Raise, σ)
      end
  | None => (Dangling, σ)
  end.

(** [l[start:]], a new list *)
Definition list_slice_from (l : loc) (start : Z) : M loc := λ σ,
  match σ !! l with
  | Some v =>
      let l' := fresh (dom σ) in (Return l', <[l':=py_slice_from start v]> σ)
  | None => (Dangling, σ)
  end.

(** [all(s == 0 for s in l)] *)
Definition list_all_zero (l : loc) : M bool := λ σ,
  match σ !! l with
  | Some v => (Return (all_zero v), σ)
  | None => (Dangling, σ)
  end.

(** [for x in xs: body(x)] *)
Fixpoint for_each (xs : list nat) (body : nat → M unit) : M unit :=
  match xs with
  | [] => mret ()
  | x :: xs' => body x;; for_each xs' body
  end.

Definition xor_step (dividend divisor : loc) (i j : nat) : M unit :=
  x ← list_getitem dividend (i + j);
  y ← list_getitem divisor j;
  list_setitem dividend (i + j) (Z.lxor x y).

Definition xor_row (dividend divisor : loc) (i : nat) : M unit :=
  x ← list_getitem dividend i;
  if (x =? 1)%Z
  then m ← list_len divisor;
       for_each (py_range m) (xor_step dividend divisor i)
  else mret ().

Definition xor_division (dividend divisor : loc) : M loc :=
  dividend ← list_copy dividend;
  n ← list_len dividend;
  m ← list_len divisor;
  for_each (py_range (n - m + 1)) (xor_row dividend divisor);;
  m ← list_len divisor;
  list_slice_from dividend (- (m - 1)).

Definition compute_syndrome (received generator : loc) : M loc :=
  xor_division received generator.

Fixpoint flip_search (generator received : loc) (indices : list nat)
    : M (loc * string) :=
  match indices with
  | [] => mret (received, msg_unable)
  | i :: indices' =>
      test ← list_copy received;
      x ← list_getitem test i;
      list_setitem test i (Z.lxor x 1);;
      s ← compute_syndrome test generator;
      z ← list_all_zero s;
      if (z : bool) then mret (test, msg_corrected i)
      else flip_search generator received indices'
  end.

Definition simple_berlekamp_like_decoder (generator received syndrome : loc)
    : M (loc * string) :=
  z ← list_all_zero syndrome;
  if (z : bool) then mret (received, msg_no_error)
  else n ← list_len received;
       flip_search generator received (py_range n).

End Heap.

(** ** The script around the kernel

    The script reads two texts, turns each character into an integer,
    computes the syndrome and decodes; it then builds a circuit with one
    X gate per 1 bit and picks a Bloch vector from the first bit.  The
    texts are strings of characters with code points below 256. *)

(** [int(x)] for a one-character string [x]: the value of a decimal
    digit; any other character raises [ValueError], here [None]. *)
Definition int_of_char (x : Ascii.ascii) : option Z :=
  let n := Ascii.N_of_ascii x in
  if decide (48 ≤ n ≤ 57)%N then Some (Z.of_N n - 48)%Z else None.

(** [[int(x) for x in text]] *)
Definition parse_bits (text : string) : option (list Z) :=
  mapM int_of_char (String.list_ascii_of_string text).

Inductive script_outcome (A : Type) : Type :=
| Completed (a : A)
| RaisedValueError
| RaisedIndexError.
Arguments Completed {A} a.
Arguments RaisedValueError {A}.
Arguments RaisedIndexError {A}.

(** The computation of the script from the two text inputs to the decoder's
    result: [(syndrome, corrected, message)]. *)
Definition script_kernel (generator_text received_str : string)
    : script_outcome (list Z * list Z * string) :=
  match parse_bits generator_text with
  | None => RaisedValueError
  | Some generator =>
      match parse_bits received_str with
      | None => RaisedValueError
      | Some received =>
          match compute_syndrome received generator with
          | IndexError => RaisedIndexError
          | Ok syndrome =>
              match simple_berlekamp_like_decoder generator received syndrome with
              | IndexError => RaisedIndexError
              | Ok (corrected, message) => Completed (syndrome, corrected, message)
              end
          end
      end
  end.

(** The X gates [quantum_visualization] puts on its circuit of [len(bits)]
    qubits, as the list of the qubits in the order of the calls [qc.x(i)]:
    [for i, b in enumerate(bits): if b == 1: qc.x(i)]. *)
Definition quantum_visualization_gates (bits : list Z) : list nat :=
  foldl (λ qc '(i, b), if (b =? 1)%Z then qc ++ [i] else qc) []
        (imap pair bits).

(** [bloch_vec], chosen from [received[0]]. *)
Definition bloch_vec (received : list Z) : result (list Z) :=
  x ← py_get received 0;
  Ok (if (x =? 0)%Z then [0; 0; 1]%Z else [0; 0; -1]%Z).

(** ** Specification-side predicates *)

(** Flipping bit [i] of [received] yields a vector whose syndrome under
    [generator] is computed and is all-zero. *)
Definition flip_clears (generator received : list Z) (i : nat) : bool :=
  match test ← flip_bit received i; compute_syndrome test generator with
  | Ok s => all_zero s
  | IndexError => false
  end.

(** The round trip of the specification for one codeword [c] and one
    index [i]: if [c] has an all-zero syndrome and no index below [i]
    clears the syndrome of [c] with bit [i] flipped, decoding the flipped
    vector with its recomputed syndrome gives [c] back and reports
    position [i]. *)
Definition round_trip (generator c : list Z) (i : nat) : Prop :=
  ∀ s0 r s,
    compute_syndrome c generator = Ok s0 → all_zero s0 = true →
    flip_bit c i = Ok r → compute_syndrome r generator = Ok s →
    (∀ j, j < i → flip_clears generator r j = false) →
    simple_berlekamp_like_decoder generator r s = Ok (c, msg_corrected i).

(** The decoder as the specification words it: the zero-syndrome check,
    then the first index in ascending order whose flip clears the
    syndrome, else the uncorrectable report. *)
Definition decode_spec (generator received syndrome : list Z)
    : list Z * string :=
  if all_zero syndrome then (received, msg_no_error)
  else match find (λ i, flip_clears generator received i)
                  (seq 0 (length received)) with
       | Some i => (<[i:=Z.lxor (received !!! i) 1]> received, msg_corrected i)
       | None => (received, msg_unable)
       end.

(** [keeps σ0 Q m]: run from any store that extends [σ0], the computation
    [m] leaves a store that still extends [σ0], so every object of [σ0]
    has its contents unchanged, and a returned value satisfies [Q]. *)
Definition keeps {A : Type} (σ0 : gmap positive (list Z)) (Q : A → Prop)
    (m : Heap.M A) : Prop :=
  ∀ σ, σ0 ⊆ σ → σ0 ⊆ (m σ).2 ∧ ∀ a, (m σ).1 = Heap.Return a → Q a.

(** [computes σ r res]: the run [res] from store [σ] has the outcome of the
    value-level result [r]; a returned reference is new and holds the
    returned value, and the objects of [σ] are unchanged. *)
Definition computes (σ : gmap positive (list Z)) (r : result (list Z))
    (res : Heap.outcome Heap.loc * gmap positive (list Z)) : Prop :=
  σ ⊆ res.2 ∧
  match r with
  | Ok v => ∃ l, res.1 = Heap.Return l ∧ σ !! l = None ∧ res.2 !! l = Some v
  | IndexError => res.1 = Heap.Raise
  end.

(** [updates l σ r res]: the run [res] from store [σ] wrote to the object
    [l] only, and has the outcome of the value-level loop result [r],
    whose value is the final contents of [l]. *)
Definition updates (l : Heap.loc) (σ : gmap positive (list Z))
    (r : result (list Z)) (res : Heap.outcome unit * gmap positive (list Z))
    : Prop :=
  ∃ w, res.2 = <[l:=w]> σ ∧
       match r with
       | Ok w' => res.1 = Heap.Return () ∧ w = w'
       | IndexError => res.1 = Heap.Raise
       end.

(** [decodes σ r res]: the run [res] of the decoder from store [σ] has
    the outcome of the value-level result [r]: the same status label and a
    reference to a list holding the same vector, with the objects of [σ]
    unchanged. *)
Definition decodes (σ : gmap positive (list Z)) (r : result (list Z * string))
    (res : Heap.outcome (Heap.loc * string) * gmap positive (list Z)) : Prop :=
  σ ⊆ res.2 ∧
  match r with
  | Ok (v, msg) => ∃ l, res.1 = Heap.Return (l, msg) ∧ res.2 !! l = Some v
  | IndexError => res.1 = Heap.Raise
  end.

(** The default configuration of the script: generator [1011] and
    received codeword [1101001]. *)
Definition fixture_generator : list Z := [1; 0; 1; 1]%Z.
Definition fixture_received : list Z := [1; 1; 0; 1; 0; 0; 1]%Z.

(** ** Bit vectors and closed forms of the loops *)

Definition is_bit (x : Z) : Prop := x = 0%Z ∨ x = 1%Z.

(** Element-wise exclusive or of two vectors. *)
Definition xor_vec (a b : list Z) : list Z := zip_with Z.lxor a b.

(** The working copy after the first [k] steps of the inner loop at
    offset [i]: the positions [i .. i + k - 1] have the divisor xor-ed in. *)
Definition xor_shift (g : list Z) (i k : nat) (w : list Z) : list Z :=
  imap (λ p x, if decide (i ≤ p < i + k)
               then Z.lxor x (g !!! (p - i)) else x) w.

(** The working copy after the outer loop body at offset [i]. *)
Definition row_closed (g : list Z) (i : nat) (w : list Z) : list Z :=
  if (w !!! i =? 1)%Z then xor_shift g i (length g) w else w.

(** The working copy after the first [k] iterations of the outer loop. *)
Definition pass_closed (g d : list Z) (k : nat) : list Z :=
  foldl (λ w i, row_closed g i w) d (seq 0 k).

(** The vector of length [n] whose only 1 is at position [i]. *)
Definition unit_vec (n i : nat) : list Z := <[i:=1%Z]> (replicate n 0%Z).

(** * Properties of the value-level model *)

Section Loops.
Context {S : Type}.
Implicit Types (body : nat → S → result S) (xs : list nat).

Lemma for_in_app xs ys body s :
  for_in (xs ++ ys) body s = s' ← for_in xs body s; for_in ys body s'.
Proof.
  revert s. induction xs as [|x xs IH]; intros s; simpl; [done|].
  destruct (body x s) as [s1|]; simpl; [apply IH|done].
Qed.

(** A loop whose body never raises under an invariant runs to the end
    and keeps the invariant. *)
Lemma for_in_inv (P : S → Prop) xs body s :
  P s →
  (∀ x t, x ∈ xs → P t → ∃ t', body x t = Ok t' ∧ P t') →
  ∃ s', for_in xs body s = Ok s' ∧ P s'.
Proof.
  revert s. induction xs as [|x xs IH]; intros s Hs Hbody; simpl.
  - eauto.
  - destruct (Hbody x s) as (t & -> & Ht); [left|done|]. simpl.
    apply IH; [done|]. intros y u Hy. apply Hbody. by right.
Qed.
End Loops.

Lemma elem_of_py_range (n : Z) (i : nat) : i ∈ py_range n ↔ (Z.of_nat i < n)%Z.
Proof. unfold py_range. rewrite elem_of_seq. lia. Qed.

Lemma py_range_nonpos (n : Z) : (n ≤ 0)%Z → py_range n = [].
Proof. intros Hn. unfold py_range. by replace (Z.to_nat n) with 0 by lia. Qed.

Lemma py_range_len (l : list Z) : py_range (len l) = seq 0 (length l).
Proof. unfold py_range, len. by rewrite Nat2Z.id. Qed.

Lemma py_get_Ok (l : list Z) (i : nat) (x : Z) : py_get l i = Ok x ↔ l !! i = Some x.
Proof. unfold py_get. destruct (l !! i); naive_solver. Qed.

Lemma py_get_lt (l : list Z) (i : nat) : i < length l → ∃ x, py_get l i = Ok x.
Proof.
  intros Hi. destruct (lookup_lt_is_Some_2 l i Hi) as [x Hx].
  exists x. by apply py_get_Ok.
Qed.

Lemma py_get_ge (l : list Z) (i : nat) : length l ≤ i → py_get l i = IndexError.
Proof. intros Hi. unfold py_get. by rewrite lookup_ge_None_2. Qed.

Lemma py_set_lt (l : list Z) (i : nat) (v : Z) :
  i < length l → py_set l i v = Ok (<[i:=v]> l).
Proof. intros Hi. unfold py_set. by rewrite decide_True. Qed.

Lemma py_set_Ok (l l' : list Z) (i : nat) (v : Z) :
  py_set l i v = Ok l' → i < length l ∧ l' = <[i:=v]> l.
Proof. unfold py_set. case_decide; naive_solver. Qed.

(** ** Slices *)

Lemma py_slice_from_zero (l : list Z) : py_slice_from 0 l = l.
Proof.
  unfold py_slice_from, len. simpl.
  by replace (Z.to_nat (Z.min 0 (Z.of_nat (length l)))) with 0 by lia.
Qed.

Lemma py_slice_from_neg (k : nat) (l : list Z) :
  0 < k → py_slice_from (- Z.of_nat k) l = drop (length l - k) l.
Proof.
  intros Hk. unfold py_slice_from, len.
  destruct (Z.ltb_spec (- Z.of_nat k) 0); [|lia]. f_equal. lia.
Qed.

Lemma py_slice_from_suffix (start : Z) (l : list Z) :
  py_slice_from start l `suffix_of` l.
Proof. apply suffix_drop. Qed.

(** ** The division pass *)

Lemma xor_step_total (divisor dividend : list Z) (i j : nat) :
  j < length divisor → i + j < length dividend →
  ∃ w, xor_step divisor i j dividend = Ok w ∧ length w = length dividend.
Proof.
  intros Hj Hij. unfold xor_step.
  destruct (py_get_lt dividend (i + j) Hij) as [x ->].
  destruct (py_get_lt divisor j Hj) as [y ->]. simpl.
  rewrite py_set_lt by done. eexists. split; [done|]. apply length_insert.
Qed.

Lemma xor_row_total (divisor dividend : list Z) (i : nat) :
  divisor ≠ [] → i + length divisor ≤ length dividend →
  ∃ w, xor_row divisor i dividend = Ok w ∧ length w = length dividend.
Proof.
  intros Hne Hi. unfold xor_row.
  assert (0 < length divisor) by (destruct divisor; simpl; [done|lia]).
  destruct (py_get_lt dividend i) as [x ->]; [lia|]. simpl.
  destruct (x =? 1)%Z; [|by eauto].
  apply (for_in_inv (λ w, length w = length dividend)); [done|].
  intros j w Hj%elem_of_py_range Hw. unfold len in Hj.
  destruct (xor_step_total divisor w i j) as (w' & -> & Hw'); [lia..|].
  exists w'. split; [done|congruence].
Qed.

(** With a non-empty divisor the pass never raises and its working copy
    has the length of the dividend. *)
Lemma xor_pass_total (dividend divisor : list Z) :
  divisor ≠ [] →
  ∃ w, xor_pass dividend divisor = Ok w ∧ length w = length dividend.
Proof.
  intros Hne. unfold xor_pass.
  apply (for_in_inv (λ w, length w = length dividend)); [done|].
  intros i w Hi%elem_of_py_range Hw. unfold len in Hi.
  destruct (xor_row_total divisor w i) as (w' & -> & Hw'); [done|lia|].
  exists w'. split; [done|congruence].
Qed.

Lemma xor_division_total (dividend divisor : list Z) :
  divisor ≠ [] → ∃ r, xor_division dividend divisor = Ok r.
Proof.
  intros Hne. unfold xor_division.
  destruct (xor_pass_total dividend divisor Hne) as (w & -> & _). simpl. eauto.
Qed.

(** With an empty divisor the last iteration reads one past the end. *)
Lemma xor_pass_empty_divisor (dividend : list Z) :
  xor_pass dividend [] = IndexError.
Proof.
  unfold xor_pass.
  replace (py_range (len dividend - len [] + 1))
    with (seq 0 (length dividend) ++ [length dividend]).
  2:{ unfold py_range.
      replace (Z.to_nat (len dividend - len [] + 1))
        with (length dividend + 1) by (unfold len; simpl; lia).
      by rewrite seq_app. }
  rewrite for_in_app.
  destruct (for_in_inv (λ w, w = dividend) (seq 0 (length dividend))
              (xor_row []) dividend) as (w & -> & ->); [done| |].
  - intros i w Hi%elem_of_seq ->. unfold xor_row.
    destruct (py_get_lt dividend i) as [x ->]; [lia|]. simpl.
    exists dividend. by destruct (x =? 1)%Z.
  - simpl. unfold xor_row. by rewrite py_get_ge.
Qed.

Lemma xor_division_Ok_nonempty (dividend divisor r : list Z) :
  xor_division dividend divisor = Ok r → divisor ≠ [].
Proof.
  intros Hr ->. unfold xor_division in Hr.
  by rewrite xor_pass_empty_divisor in Hr.
Qed.

(** For a divisor of two or more elements the remainder has the length
    the specification states. *)
Lemma xor_division_length (dividend divisor : list Z) :
  2 ≤ length divisor → length divisor ≤ length dividend →
  ∃ r, xor_division dividend divisor = Ok r ∧ length r = length divisor - 1.
Proof.
  intros Hg Hd. unfold xor_division.
  destruct (xor_pass_total dividend divisor) as (w & -> & Hw).
  { intros ->. simpl in Hg. lia. }
  simpl. eexists. split; [done|].
  replace (- (len divisor - 1))%Z with (- Z.of_nat (length divisor - 1))%Z
    by (unfold len; lia).
  rewrite py_slice_from_neg by lia. rewrite length_drop. lia.
Qed.

(** ** Flipping one bit *)

Lemma flip_bit_Ok (received t : list Z) (i : nat) :
  flip_bit received i = Ok t ↔
  ∃ x, received !! i = Some x ∧ t = <[i:=Z.lxor x 1]> received.
Proof.
  unfold flip_bit, py_get. split.
  - destruct (received !! i) as [x|] eqn:Hx; simpl; [|done].
    intros [_ ->]%py_set_Ok. eauto.
  - intros (x & Hx & ->). rewrite Hx. simpl. rewrite py_set_lt; [done|].
    by eapply lookup_lt_Some.
Qed.

Lemma flip_bit_lt (received : list Z) (i : nat) :
  i < length received → ∃ t, flip_bit received i = Ok t.
Proof.
  intros Hi. destruct (lookup_lt_is_Some_2 received i Hi) as [x Hx].
  eexists. apply flip_bit_Ok. eauto.
Qed.

Lemma flip_bit_Ok_lt (received t : list Z) (i : nat) :
  flip_bit received i = Ok t → i < length received ∧ length t = length received.
Proof.
  intros (x & Hx & ->)%flip_bit_Ok. rewrite length_insert.
  split; [by eapply lookup_lt_Some|done].
Qed.

(** Flipping the same bit twice gives the vector back. *)
Lemma flip_bit_involutive (c r : list Z) (i : nat) :
  flip_bit c i = Ok r → flip_bit r i = Ok c.
Proof.
  intros (x & Hx & ->)%flip_bit_Ok. apply flip_bit_Ok.
  exists (Z.lxor x 1). split.
  - apply list_lookup_insert_eq. by eapply lookup_lt_Some.
  - rewrite list_insert_insert_eq.
    rewrite Z.lxor_assoc, Z.lxor_nilpotent, Z.lxor_0_r.
    symmetry. by apply list_insert_id.
Qed.

Lemma flip_clears_true (generator received : list Z) (i : nat) :
  flip_clears generator received i = true ↔
  ∃ t s, flip_bit received i = Ok t ∧ compute_syndrome t generator = Ok s
         ∧ all_zero s = true.
Proof.
  unfold flip_clears. split.
  - destruct (flip_bit received i) as [t|]; simpl; [|done].
    destruct (compute_syndrome t generator) as [s|] eqn:Hs; [|done]. eauto.
  - intros (t & s & -> & Hs & Hz). simpl. by rewrite Hs.
Qed.

Lemma flip_clears_false (generator received : list Z) (i : nat) :
  generator ≠ [] → i < length received →
  flip_clears generator received i = false →
  ∃ t s, flip_bit received i = Ok t ∧ compute_syndrome t generator = Ok s
         ∧ all_zero s = false.
Proof.
  intros Hg Hi. unfold flip_clears.
  destruct (flip_bit_lt received i Hi) as [t ->]. simpl.
  destruct (xor_division_total t generator Hg) as [s Hs].
  unfold compute_syndrome. rewrite Hs. eauto.
Qed.

(** ** The flip search *)

Lemma flip_search_hit (generator received t s : list Z) (i : nat) rest :
  flip_bit received i = Ok t → compute_syndrome t generator = Ok s →
  all_zero s = true →
  flip_search generator received (i :: rest) = Ok (t, msg_corrected i).
Proof. intros Ht Hs Hz. simpl. rewrite Ht. simpl. rewrite Hs. simpl. by rewrite Hz. Qed.

Lemma flip_search_skip (generator received : list Z) (skipped rest : list nat) :
  generator ≠ [] →
  (∀ j, j ∈ skipped → j < length received
                      ∧ flip_clears generator received j = false) →
  flip_search generator received (skipped ++ rest)
  = flip_search generator received rest.
Proof.
  intros Hg. induction skipped as [|j skipped IH]; intros Hall; [done|].
  destruct (Hall j) as [Hj Hc]; [left|].
  destruct (flip_clears_false _ _ _ Hg Hj Hc) as (t & s & Ht & Hs & Hz).
  simpl. rewrite Ht. simpl. rewrite Hs. simpl. rewrite Hz.
  apply IH. intros k Hk. apply Hall. by right.
Qed.

(** The search returns the flip at the least index that clears the
    syndrome. *)
Lemma flip_search_first (generator received t : list Z) (i : nat) :
  flip_bit received i = Ok t →
  flip_clears generator received i = true →
  (∀ j, j < i → flip_clears generator received j = false) →
  flip_search generator received (py_range (len received))
  = Ok (t, msg_corrected i).
Proof.
  intros Ht Hi Hlow.
  apply flip_clears_true in Hi as (t' & s & Ht' & Hs & Hz).
  assert (t' = t) as -> by congruence.
  destruct (flip_bit_Ok_lt _ _ _ Ht) as [Hlt _].
  assert (generator ≠ []) as Hg by by eapply xor_division_Ok_nonempty.
  rewrite py_range_len.
  replace (length received) with (i + S (length received - S i)) by lia.
  rewrite seq_app. simpl. rewrite flip_search_skip; [|done|].
  - by eapply flip_search_hit.
  - intros j Hj%elem_of_seq. split; [lia|]. apply Hlow. lia.
Qed.

(** When no flip clears the syndrome the search runs to the end. *)
Lemma flip_search_none (generator received : list Z) :
  generator ≠ [] →
  (∀ j, j < length received → flip_clears generator received j = false) →
  flip_search generator received (py_range (len received))
  = Ok (received, msg_unable).
Proof.
  intros Hg Hall. rewrite py_range_len.
  rewrite <- (app_nil_r (seq 0 (length received))).
  rewrite flip_search_skip; [done..|].
  intros j Hj%elem_of_seq. split; [lia|]. apply Hall. lia.
Qed.

(** ** The decoder against the wording of the specification *)

Lemma flip_search_find (generator received : list Z) (indices : list nat) :
  generator ≠ [] →
  (∀ i, i ∈ indices → i < length received) →
  flip_search generator received indices
  = Ok match find (λ i, flip_clears generator received i) indices with
       | Some i => (<[i:=Z.lxor (received !!! i) 1]> received, msg_corrected i)
       | None => (received, msg_unable)
       end.
Proof.
  intros Hg. induction indices as [|i indices IH]; intros Hlt; [done|].
  cbn [find]. destruct (flip_clears generator received i) eqn:Hc.
  - apply flip_clears_true in Hc as (t & s & Ht & Hs & Hz).
    rewrite (flip_search_hit _ _ t s) by done.
    apply flip_bit_Ok in Ht as (x & Hx & ->).
    by rewrite (list_lookup_total_correct _ _ _ Hx).
  - rewrite (flip_search_skip _ _ [i] indices); [|done|].
    + apply IH. intros j Hj. apply Hlt. by right.
    + intros j ->%list_elem_of_singleton. split; [|done]. apply Hlt. left.
Qed.

(** With a non-empty generator the decoder never raises and is the search
    the specification describes. *)
Lemma decoder_decode_spec (generator received syndrome : list Z) :
  generator ≠ [] →
  simple_berlekamp_like_decoder generator received syndrome
  = Ok (decode_spec generator received syndrome).
Proof.
  intros Hg. unfold simple_berlekamp_like_decoder, decode_spec.
  destruct (all_zero syndrome); [done|].
  rewrite py_range_len. apply flip_search_find; [done|].
  intros i Hi%elem_of_seq. lia.
Qed.

(** * Properties of the store model *)

(** ** Frame: objects that exist before a call are not written *)

Section Frame.
Import Heap.
Context (σ0 : gmap positive (list Z)).

Lemma keeps_ret {A} (Q : A → Prop) (a : A) : Q a → keeps σ0 Q (mret a).
Proof. intros Ha σ Hσ. split; [done|]. intros b [= <-]. done. Qed.

Lemma keeps_bind {A B} (Q : A → Prop) (R : B → Prop) (m : M A) (k : A → M B) :
  keeps σ0 Q m → (∀ a, Q a → keeps σ0 R (k a)) → keeps σ0 R (m ≫= k).
Proof.
  intros Hm Hk σ Hσ. destruct (Hm σ Hσ) as [Hsub HQ].
  unfold mbind, M_bind. destruct (m σ) as [[a| |] σ1]; simpl in *; [|done..].
  apply Hk; [by apply HQ|done].
Qed.

Lemma keeps_weaken {A} (Q R : A → Prop) (m : M A) :
  keeps σ0 Q m → (∀ a, Q a → R a) → keeps σ0 R m.
Proof. intros Hm HQR σ Hσ. destruct (Hm σ Hσ). naive_solver. Qed.

Lemma fresh_outside (σ : gmap positive (list Z)) :
  σ0 ⊆ σ → σ0 !! fresh (dom σ) = None.
Proof.
  intros Hσ. apply not_elem_of_dom. intros Hin.
  apply (is_fresh (dom σ)). by eapply subseteq_dom.
Qed.

Lemma keeps_copy (l : loc) : keeps σ0 (λ l', σ0 !! l' = None) (list_copy l).
Proof.
  intros σ Hσ. unfold list_copy. destruct (σ !! l) as [v|]; simpl; [|done].
  split; [|intros ? [= <-]; by apply fresh_outside].
  apply insert_subseteq_r; [by apply fresh_outside|done].
Qed.

Lemma keeps_slice_from (l : loc) (start : Z) :
  keeps σ0 (λ l', σ0 !! l' = None) (list_slice_from l start).
Proof.
  intros σ Hσ. unfold list_slice_from. destruct (σ !! l) as [v|]; simpl; [|done].
  split; [|intros ? [= <-]; by apply fresh_outside].
  apply insert_subseteq_r; [by apply fresh_outside|done].
Qed.

Lemma keeps_len (l : loc) : keeps σ0 (λ _, True) (list_len l).
Proof. intros σ Hσ. unfold list_len. by destruct (σ !! l). Qed.

Lemma keeps_getitem (l : loc) (i : nat) : keeps σ0 (λ _, True) (list_getitem l i).
Proof. intros σ Hσ. unfold list_getitem. by destruct (σ !! l). Qed.

Lemma keeps_all_zero (l : loc) : keeps σ0 (λ _, True) (list_all_zero l).
Proof. intros σ Hσ. unfold list_all_zero. by destruct (σ !! l). Qed.

(** The one writing primitive: allowed on objects outside [σ0] only. *)
Lemma keeps_setitem (l : loc) (i : nat) (x : Z) :
  σ0 !! l = None → keeps σ0 (λ _, True) (list_setitem l i x).
Proof.
  intros Hl σ Hσ. unfold list_setitem. destruct (σ !! l) as [v|]; simpl; [|done].
  destruct (py_set v i x); simpl; [|done].
  split; [|done]. by apply insert_subseteq_r.
Qed.

Lemma keeps_for_each (xs : list nat) (body : nat → M unit) :
  (∀ x, keeps σ0 (λ _, True) (body x)) →
  keeps σ0 (λ _, True) (for_each xs body).
Proof.
  intros Hbody. induction xs as [|x xs IH]; simpl.
  - by apply keeps_ret.
  - eapply keeps_bind; [apply Hbody|]. intros _ _. apply IH.
Qed.

Lemma keeps_xor_step (dividend divisor : loc) (i j : nat) :
  σ0 !! dividend = None →
  keeps σ0 (λ _, True) (Heap.xor_step dividend divisor i j).
Proof.
  intros Hd. unfold Heap.xor_step.
  eapply keeps_bind; [apply keeps_getitem|]. intros x _.
  eapply keeps_bind; [apply keeps_getitem|]. intros y _.
  by apply keeps_setitem.
Qed.

Lemma keeps_xor_row (dividend divisor : loc) (i : nat) :
  σ0 !! dividend = None →
  keeps σ0 (λ _, True) (Heap.xor_row dividend divisor i).
Proof.
  intros Hd. unfold Heap.xor_row.
  eapply keeps_bind; [apply keeps_getitem|]. intros x _.
  destruct (x =? 1)%Z; [|by apply keeps_ret].
  eapply keeps_bind; [apply keeps_len|]. intros m _.
  apply keeps_for_each. intros j. by apply keeps_xor_step.
Qed.

Lemma keeps_xor_division (dividend divisor : loc) :
  keeps σ0 (λ l', σ0 !! l' = None) (Heap.xor_division dividend divisor).
Proof.
  unfold Heap.xor_division.
  eapply keeps_bind; [apply keeps_copy|]. intros w Hw.
  eapply keeps_bind; [apply keeps_len|]. intros n _.
  eapply keeps_bind; [apply keeps_len|]. intros m _.
  eapply keeps_bind.
  { apply keeps_for_each. intros i. by apply keeps_xor_row. }
  intros _ _.
  eapply keeps_bind; [apply keeps_len|]. intros m' _.
  apply keeps_slice_from.
Qed.

Lemma keeps_flip_search (generator received : loc) (indices : list nat) :
  keeps σ0 (λ _, True) (Heap.flip_search generator received indices).
Proof.
  induction indices as [|i indices IH]; simpl; [by apply keeps_ret|].
  eapply keeps_bind; [apply keeps_copy|]. intros test Htest.
  eapply keeps_bind; [apply keeps_getitem|]. intros x _.
  eapply keeps_bind; [by apply keeps_setitem|]. intros _ _.
  eapply keeps_bind; [apply keeps_xor_division|]. intros s _.
  eapply keeps_bind; [apply keeps_all_zero|]. intros z _.
  destruct z; [by apply keeps_ret|apply IH].
Qed.

Lemma keeps_decoder (generator received syndrome : loc) :
  keeps σ0 (λ _, True)
    (Heap.simple_berlekamp_like_decoder generator received syndrome).
Proof.
  unfold Heap.simple_berlekamp_like_decoder.
  eapply keeps_bind; [apply keeps_all_zero|]. intros z _.
  destruct z; [by apply keeps_ret|].
  eapply keeps_bind; [apply keeps_len|]. intros n _.
  apply keeps_flip_search.
Qed.
End Frame.

(** ** The store model computes what the value-level model computes *)

Section Refinement.
Implicit Types (σ : gmap positive (list Z)) (l : Heap.loc).

Lemma list_len_run σ l v : σ !! l = Some v → Heap.list_len l σ = (Heap.Return (len v), σ).
Proof. intros Hl. unfold Heap.list_len. by rewrite Hl. Qed.

Lemma list_getitem_run σ l v i :
  σ !! l = Some v → Heap.list_getitem l i σ = (Heap.of_result (py_get v i), σ).
Proof. intros Hl. unfold Heap.list_getitem. by rewrite Hl. Qed.

Lemma list_all_zero_run σ l v :
  σ !! l = Some v → Heap.list_all_zero l σ = (Heap.Return (all_zero v), σ).
Proof. intros Hl. unfold Heap.list_all_zero. by rewrite Hl. Qed.

Lemma updates_same l σ w : σ !! l = Some w → updates l σ (Ok w) (Heap.Return (), σ).
Proof. intros Hl. exists w. simpl. by rewrite insert_id. Qed.

Lemma updates_raise l σ w : σ !! l = Some w → updates l σ IndexError (Heap.Raise, σ).
Proof. intros Hl. exists w. simpl. by rewrite insert_id. Qed.

Lemma xor_step_updates σ dl gl g w i j :
  dl ≠ gl → σ !! gl = Some g → σ !! dl = Some w →
  updates dl σ (xor_step g i j w) (Heap.xor_step dl gl i j σ).
Proof.
  intros Hne Hg Hw. unfold Heap.xor_step, xor_step, mbind, Heap.M_bind.
  rewrite (list_getitem_run σ dl w) by done.
  destruct (py_get w (i + j)) as [x|]; simpl; [|by eapply updates_raise].
  rewrite (list_getitem_run σ gl g) by done.
  destruct (py_get g j) as [y|]; simpl; [|by eapply updates_raise].
  unfold Heap.list_setitem. rewrite Hw.
  destruct (py_set w (i + j) (Z.lxor x y)) as [w1|]; [|by eapply updates_raise].
  by exists w1.
Qed.

(** A loop whose body writes to [dl] only, as the value-level body
    prescribes, does the same as a whole. *)
Lemma for_each_updates dl gl g (xs : list nat) (body_h : nat → Heap.M unit)
    (body : nat → list Z → result (list Z)) :
  dl ≠ gl →
  (∀ x σ w, σ !! gl = Some g → σ !! dl = Some w →
            updates dl σ (body x w) (body_h x σ)) →
  ∀ σ w, σ !! gl = Some g → σ !! dl = Some w →
         updates dl σ (for_in xs body w) (Heap.for_each xs body_h σ).
Proof.
  intros Hne Hbody. induction xs as [|x xs IH]; intros σ w Hg Hw; simpl.
  - by apply updates_same.
  - destruct (Hbody x σ w Hg Hw) as (w1 & Hσ1 & Hres).
    unfold mbind at 2, Heap.M_bind.
    destruct (body_h x σ) as [o σ1]. simpl in Hσ1, Hres. subst σ1.
    destruct (body x w) as [w1'|]; simpl.
    + destruct Hres as [-> ->].
      destruct (IH (<[dl:=w1']> σ) w1') as (w2 & Hσ2 & Hres2).
      { by rewrite lookup_insert_ne. }
      { by rewrite lookup_insert_eq. }
      exists w2. split; [|done]. by rewrite Hσ2, insert_insert_eq.
    + subst o. by exists w1.
Qed.

Lemma xor_row_updates σ dl gl g w i :
  dl ≠ gl → σ !! gl = Some g → σ !! dl = Some w →
  updates dl σ (xor_row g i w) (Heap.xor_row dl gl i σ).
Proof.
  intros Hne Hg Hw. unfold Heap.xor_row, xor_row, mbind, Heap.M_bind.
  rewrite (list_getitem_run σ dl w) by done.
  destruct (py_get w i) as [x|]; simpl; [|by eapply updates_raise].
  destruct (x =? 1)%Z; [|by apply updates_same].
  rewrite (list_len_run σ gl g) by done.
  eapply for_each_updates; [done| |done..].
  intros j σ' w' Hg' Hw'. by apply xor_step_updates.
Qed.

Lemma xor_pass_updates σ dl gl g w (n : Z) :
  dl ≠ gl → σ !! gl = Some g → σ !! dl = Some w →
  updates dl σ (for_in (py_range n) (xor_row g) w)
             (Heap.for_each (py_range n) (Heap.xor_row dl gl) σ).
Proof.
  intros Hne Hg Hw. eapply for_each_updates; [done| |done..].
  intros i σ' w' Hg' Hw'. by apply xor_row_updates.
Qed.

Lemma run_bind_Return {A B} (m : Heap.M A) (k : A → Heap.M B) σ a σ' :
  m σ = (Heap.Return a, σ') → (m ≫= k) σ = k a σ'.
Proof. intros Hm. unfold mbind, Heap.M_bind. by rewrite Hm. Qed.

Lemma run_bind_Raise {A B} (m : Heap.M A) (k : A → Heap.M B) σ σ' :
  m σ = (Heap.Raise, σ') → (m ≫= k) σ = (Heap.Raise, σ').
Proof. intros Hm. unfold mbind, Heap.M_bind. by rewrite Hm. Qed.

(** [Heap.xor_division] returns a new list holding the value-level
    remainder, raises exactly when the value-level model does, and
    leaves every existing list as it was. *)
Lemma xor_division_computes σ ld lg d g :
  σ !! ld = Some d → σ !! lg = Some g →
  computes σ (xor_division d g) (Heap.xor_division ld lg σ).
Proof.
  intros Hd Hg.
  destruct (keeps_xor_division σ ld lg σ) as [Hsub Hnew]; [done|].
  split; [done|]. revert Hsub Hnew.
  set (dl := fresh (dom σ)). set (σ1 := <[dl:=d]> σ).
  assert (σ !! dl = None) as Hdl by (apply not_elem_of_dom, is_fresh).
  assert (dl ≠ lg) as Hne by congruence.
  assert (σ1 !! dl = Some d) as Hd1 by apply lookup_insert_eq.
  assert (σ1 !! lg = Some g) as Hg1 by by (unfold σ1; rewrite lookup_insert_ne).
  unfold Heap.xor_division, xor_division, xor_pass.
  rewrite (run_bind_Return (Heap.list_copy ld) _ σ dl σ1)
    by (unfold Heap.list_copy; by rewrite Hd).
  rewrite (run_bind_Return (Heap.list_len dl) _ σ1 (len d) σ1)
    by by apply list_len_run.
  rewrite (run_bind_Return (Heap.list_len lg) _ σ1 (len g) σ1)
    by by apply list_len_run.
  destruct (xor_pass_updates σ1 dl lg g d (len d - len g + 1) Hne Hg1 Hd1)
    as (w & Hσ2 & Hres).
  destruct (Heap.for_each _ _ σ1) as [o σ2] eqn:Hrun.
  simpl in Hσ2, Hres. subst σ2.
  destruct (for_in _ _ d) as [w'|]; simpl.
  - destruct Hres as [-> ->].
    rewrite (run_bind_Return _ _ σ1 () (<[dl:=w']> σ1)) by done.
    rewrite (run_bind_Return (Heap.list_len lg) _ _ (len g) (<[dl:=w']> σ1))
      by (apply list_len_run; by rewrite lookup_insert_ne).
    unfold Heap.list_slice_from. rewrite lookup_insert_eq. simpl.
    intros Hsub Hnew. eexists. split; [done|].
    split; [by apply Hnew|]. by rewrite lookup_insert_eq.
  - subst o. by rewrite (run_bind_Raise _ _ σ1 (<[dl:=w]> σ1)).
Qed.

Lemma decodes_weaken σ σ' r res : σ ⊆ σ' → decodes σ' r res → decodes σ r res.
Proof. intros Hsub [Hsub' Hres]. split; [by etrans|done]. Qed.

Lemma flip_search_decodes σ lg lr g r (indices : list nat) :
  σ !! lg = Some g → σ !! lr = Some r →
  decodes σ (flip_search g r indices) (Heap.flip_search lg lr indices σ).
Proof.
  revert σ. induction indices as [|i indices IH]; intros σ Hg Hr; simpl.
  { split; [done|]. by exists lr. }
  set (test := fresh (dom σ)). set (σ1 := <[test:=r]> σ).
  assert (σ !! test = None) as Htest by (apply not_elem_of_dom, is_fresh).
  assert (σ ⊆ σ1) as Hsub1 by by apply insert_subseteq.
  assert (σ1 !! test = Some r) as Hr1 by apply lookup_insert_eq.
  rewrite (run_bind_Return (Heap.list_copy lr) _ σ test σ1)
    by (unfold Heap.list_copy; by rewrite Hr).
  unfold flip_bit.
  destruct (py_get r i) as [x|] eqn:Hx; simpl.
  2:{ rewrite (run_bind_Raise _ _ σ1 σ1); [done|].
      rewrite (list_getitem_run σ1 test r) by done.
      by rewrite Hx. }
  rewrite (run_bind_Return _ _ σ1 x σ1).
  2:{ rewrite (list_getitem_run σ1 test r) by done.
      by rewrite Hx. }
  destruct (py_set r i (Z.lxor x 1)) as [t|] eqn:Ht; simpl.
  2:{ rewrite (run_bind_Raise _ _ σ1 σ1); [done|].
      unfold Heap.list_setitem. by rewrite Hr1, Ht. }
  set (σ2 := <[test:=t]> σ1).
  rewrite (run_bind_Return _ _ σ1 () σ2).
  2:{ unfold Heap.list_setitem. by rewrite Hr1, Ht. }
  assert (σ ⊆ σ2) as Hsub2.
  { unfold σ2, σ1. rewrite insert_insert_eq. by apply insert_subseteq. }
  assert (σ2 !! test = Some t) as Ht2 by apply lookup_insert_eq.
  assert (σ2 !! lg = Some g) as Hg2 by by eapply lookup_weaken.
  destruct (xor_division_computes σ2 test lg t g Ht2 Hg2) as [Hsub3 Hres].
  unfold Heap.compute_syndrome, compute_syndrome.
  destruct (Heap.xor_division test lg σ2) as [o σ3] eqn:Hrun.
  simpl in Hsub3, Hres.
  destruct (xor_division t g) as [s|]; simpl.
  2:{ subst o. rewrite (run_bind_Raise _ _ σ2 σ3) by done.
      split; [by etrans|done]. }
  destruct Hres as (ls & -> & _ & Hls).
  rewrite (run_bind_Return _ _ σ2 ls σ3) by done.
  rewrite (run_bind_Return _ _ σ3 (all_zero s) σ3)
    by by apply list_all_zero_run.
  destruct (all_zero s).
  - split; [by etrans|]. exists test. split; [done|]. by eapply lookup_weaken.
  - apply (decodes_weaken σ σ3); [by etrans|].
    apply IH; eapply lookup_weaken; [done|by etrans|done|by etrans].
Qed.

(** The decoder over the store returns what the value-level decoder
    returns, and writes to no list that existed before the call. *)
Lemma decoder_decodes σ lg lr ls g r s :
  σ !! lg = Some g → σ !! lr = Some r → σ !! ls = Some s →
  decodes σ (simple_berlekamp_like_decoder g r s)
            (Heap.simple_berlekamp_like_decoder lg lr ls σ).
Proof.
  intros Hg Hr Hs.
  unfold Heap.simple_berlekamp_like_decoder, simple_berlekamp_like_decoder.
  rewrite (run_bind_Return _ _ σ (all_zero s) σ) by by apply list_all_zero_run.
  destruct (all_zero s).
  - split; [done|]. by exists lr.
  - rewrite (run_bind_Return _ _ σ (len r) σ) by by apply list_len_run.
    by apply flip_search_decodes.
Qed.
End Refinement.

(** * The claims of the specification *)

(** C1 (remainder length).  The specification states that the remainder has
    length [len(g) - 1] for every non-empty divisor [g] and every dividend
    at least as long.  [xor_division_length] proves this for divisors of
    two or more elements.  For a one-element divisor the slice
    [dividend[-(len(divisor) - 1):]] is [dividend[-0:]], the whole working
    copy: dividing [1,0,1] by [1] returns the three elements [0,0,0], not
    the empty remainder. *)
Theorem remainder_length_unit_divisor :
  xor_division [1; 0; 1]%Z [1]%Z = Ok [0; 0; 0]%Z
  ∧ length [0; 0; 0]%Z ≠ length [1]%Z - 1
  ∧ length [1]%Z ≤ length [1; 0; 1]%Z.
Proof. split; [reflexivity|]. simpl. lia. Qed.

(** C2 (zero syndrome).  If the syndrome of the received vector [c] under
    [g] is all-zero, decoding [c] with that syndrome returns [c] with the
    label "No error detected".  Over the store the decoder returns the
    very reference it was given and leaves the store as it found it: no
    trial copy is allocated, so no flip search takes place, whatever the
    generator is. *)
Theorem decoder_zero_syndrome (g c s : list Z) :
  compute_syndrome c g = Ok s → all_zero s = true →
  simple_berlekamp_like_decoder g c s = Ok (c, msg_no_error)
  ∧ ∀ (σ : gmap positive (list Z)) (lg lc ls : positive),
      σ !! ls = Some s →
      Heap.simple_berlekamp_like_decoder lg lc ls σ
      = (Heap.Return (lc, msg_no_error), σ).
Proof.
  intros _ Hz. split.
  - unfold simple_berlekamp_like_decoder. by rewrite Hz.
  - intros σ lg lc ls Hs. unfold Heap.simple_berlekamp_like_decoder.
    rewrite (run_bind_Return _ _ σ (all_zero s) σ) by by apply list_all_zero_run.
    by rewrite Hz.
Qed.

Lemma decoder_zero_syndrome_witness :
  simple_berlekamp_like_decoder fixture_generator fixture_received [0; 0; 0]%Z
  = Ok (fixture_received, msg_no_error)
  ∧ ∀ (σ : gmap positive (list Z)) (lg lc ls : positive),
      σ !! ls = Some [0; 0; 0]%Z →
      Heap.simple_berlekamp_like_decoder lg lc ls σ
      = (Heap.Return (lc, msg_no_error), σ).
Proof.
  apply (decoder_zero_syndrome fixture_generator fixture_received [0; 0; 0]%Z);
    reflexivity.
Defined.

(** C3 as the specification states it fails: with generator [1,0] the
    vector [0,0] has syndrome [0], and so has [1,0], the vector with bit 0
    flipped.  The decoder checks the syndrome first and returns [1,0] with
    "No error detected"; it does not restore [0,0]. *)
Lemma round_trip_fails : ¬ round_trip [1; 0]%Z [0; 0]%Z 0.
Proof.
  intros H.
  specialize (H [0]%Z [1; 0]%Z [0]%Z eq_refl eq_refl eq_refl eq_refl).
  assert (simple_berlekamp_like_decoder [1; 0]%Z [1; 0]%Z [0]%Z
          = Ok ([1; 0]%Z, msg_no_error)) as Hrun by reflexivity.
  rewrite H in Hrun; [|lia]. discriminate Hrun.
Qed.

(** C3 (round trip, amended).  Let [c] have an all-zero syndrome under [g],
    and let [r] be [c] with bit [i] flipped.  If the syndrome of [r] is
    not all-zero and no index below [i] clears it, decoding [r] with its
    recomputed syndrome returns [c] and reports a single-bit correction at
    position [i]. *)
Theorem round_trip_nonzero_syndrome (g c r s0 s : list Z) (i : nat) :
  compute_syndrome c g = Ok s0 → all_zero s0 = true →
  flip_bit c i = Ok r → compute_syndrome r g = Ok s →
  all_zero s = false →
  (∀ j, j < i → flip_clears g r j = false) →
  simple_berlekamp_like_decoder g r s = Ok (c, msg_corrected i).
Proof.
  intros Hs0 Hz0 Hr Hs Hz Hlow.
  unfold simple_berlekamp_like_decoder. rewrite Hz.
  apply flip_search_first; [by apply flip_bit_involutive| |done].
  apply flip_clears_true. exists c, s0.
  split; [by apply flip_bit_involutive|done].
Qed.

Lemma round_trip_nonzero_syndrome_witness :
  simple_berlekamp_like_decoder fixture_generator
    [1; 1; 0; 1; 0; 1; 1]%Z [0; 1; 0]%Z
  = Ok (fixture_received, msg_corrected 5).
Proof.
  apply (round_trip_nonzero_syndrome fixture_generator fixture_received
           [1; 1; 0; 1; 0; 1; 1]%Z [0; 0; 0]%Z [0; 1; 0]%Z 5);
    try reflexivity.
  intros j Hj. do 5 (destruct j as [|j]; [reflexivity|]). lia.
Defined.

(** C4 (lowest index wins).  With a non-zero syndrome, if flipping bit [i]
    and flipping a later bit [k] both yield an all-zero syndrome, and no
    index below [i] does, the decoder returns the trial vector of [i],
    the smallest such index, and reports position [i]; the second
    candidate [k] is never looked at. *)
Theorem decoder_lowest_index (g r s t : list Z) (i k : nat) :
  all_zero s = false →
  i < k →
  flip_bit r i = Ok t →
  flip_clears g r i = true →
  flip_clears g r k = true →
  (∀ j, j < i → flip_clears g r j = false) →
  simple_berlekamp_like_decoder g r s = Ok (t, msg_corrected i).
Proof.
  intros Hz _ Ht Hi _ Hlow.
  unfold simple_berlekamp_like_decoder. rewrite Hz.
  by apply flip_search_first.
Qed.

Lemma decoder_lowest_index_witness :
  simple_berlekamp_like_decoder fixture_generator
    [0; 0; 0; 0; 0; 0; 0; 0; 1]%Z [0; 0; 1]%Z
  = Ok ([0; 1; 0; 0; 0; 0; 0; 0; 1]%Z, msg_corrected 1).
Proof.
  apply (decoder_lowest_index fixture_generator
           [0; 0; 0; 0; 0; 0; 0; 0; 1]%Z [0; 0; 1]%Z
           [0; 1; 0; 0; 0; 0; 0; 0; 1]%Z 1 8);
    try reflexivity; [lia|].
  intros j Hj. destruct j as [|j]; [reflexivity|lia].
Defined.

(** C5 (uncorrectable).  If the syndrome of the received vector is not
    all-zero and no single-bit flip yields an all-zero syndrome, the
    decoder returns the received vector unchanged with the label "Unable to
    correct (multiple errors)", as an ordinary result. *)
Theorem decoder_uncorrectable (g r s : list Z) :
  compute_syndrome r g = Ok s → all_zero s = false →
  (∀ j, j < length r → flip_clears g r j = false) →
  simple_berlekamp_like_decoder g r s = Ok (r, msg_unable).
Proof.
  intros Hs Hz Hall.
  unfold simple_berlekamp_like_decoder. rewrite Hz.
  apply flip_search_none; [|done]. by eapply xor_division_Ok_nonempty.
Qed.

Lemma decoder_uncorrectable_witness :
  simple_berlekamp_like_decoder fixture_generator [0; 1; 1; 1]%Z [1; 1; 1]%Z
  = Ok ([0; 1; 1; 1]%Z, msg_unable).
Proof.
  apply (decoder_uncorrectable fixture_generator [0; 1; 1; 1]%Z [1; 1; 1]%Z);
    try reflexivity.
  intros j Hj. simpl in Hj. do 4 (destruct j as [|j]; [reflexivity|]). lia.
Defined.

(** C6 (regression fixture).  For generator [1,0,1,1] and received vector
    [1,1,0,1,0,0,1] the division yields the three-bit syndrome [0,0,0], so
    the decoder reports "No error detected" and returns the vector
    unchanged.  Whatever syndrome is passed for this vector, the decoder
    does what the specification words: the zero check, then the first of
    the indices 0..6 in ascending order whose flip clears the syndrome,
    else the uncorrectable report. *)
Theorem fixture_outcome :
  compute_syndrome fixture_received fixture_generator = Ok [0; 0; 0]%Z
  ∧ simple_berlekamp_like_decoder fixture_generator fixture_received
      [0; 0; 0]%Z = Ok (fixture_received, msg_no_error)
  ∧ seq 0 (length fixture_received) = [0; 1; 2; 3; 4; 5; 6]
  ∧ ∀ s, simple_berlekamp_like_decoder fixture_generator fixture_received s
         = Ok (decode_spec fixture_generator fixture_received s).
Proof.
  repeat split; try reflexivity.
  intros s. by apply decoder_decode_spec.
Qed.

(** C7 (inputs are not mutated).  Every list that exists before a call,
    in particular the dividend and the divisor, also when they are the
    same object, holds the same contents after [xor_division], after
    [compute_syndrome] and after the decoder with all its trial flips:
    the code writes only to the copies it makes. *)
Theorem inputs_not_mutated (σ : gmap positive (list Z)) (l : positive)
    (v : list Z) :
  σ !! l = Some v →
  (∀ dividend divisor, (Heap.xor_division dividend divisor σ).2 !! l = Some v)
  ∧ (∀ received generator,
       (Heap.compute_syndrome received generator σ).2 !! l = Some v)
  ∧ (∀ generator received syndrome,
       (Heap.simple_berlekamp_like_decoder generator received syndrome σ).2 !! l
       = Some v).
Proof.
  intros Hl. repeat split; intros; eapply lookup_weaken; try exact Hl.
  - by apply (keeps_xor_division σ).
  - by apply (keeps_xor_division σ).
  - by apply (keeps_decoder σ).
Qed.

Lemma inputs_not_mutated_witness :
  (∀ dividend divisor,
     (Heap.xor_division dividend divisor
        {[ 1%positive := [1; 1; 0; 1; 0; 1; 1]%Z;
           2%positive := fixture_generator ]}).2 !! 1%positive
     = Some [1; 1; 0; 1; 0; 1; 1]%Z)
  ∧ (∀ received generator,
       (Heap.compute_syndrome received generator
          {[ 1%positive := [1; 1; 0; 1; 0; 1; 1]%Z;
             2%positive := fixture_generator ]}).2 !! 1%positive
       = Some [1; 1; 0; 1; 0; 1; 1]%Z)
  ∧ (∀ generator received syndrome,
       (Heap.simple_berlekamp_like_decoder generator received syndrome
          {[ 1%positive := [1; 1; 0; 1; 0; 1; 1]%Z;
             2%positive := fixture_generator ]}).2 !! 1%positive
       = Some [1; 1; 0; 1; 0; 1; 1]%Z).
Proof.
  apply (inputs_not_mutated
           {[ 1%positive := [1; 1; 0; 1; 0; 1; 1]%Z;
              2%positive := fixture_generator ]}
           1%positive [1; 1; 0; 1; 0; 1; 1]%Z).
  reflexivity.
Defined.

(** C8 (short dividend).  For a non-empty divisor longer than the
    dividend the loop range is empty, so the body never runs, and the
    result is a suffix of the original dividend: the whole of it. *)
Theorem xor_division_short_dividend (d g : list Z) :
  g ≠ [] → length d < length g →
  py_range (len d - len g + 1) = []
  ∧ ∃ r, xor_division d g = Ok r ∧ r `suffix_of` d ∧ r = d.
Proof.
  intros _ Hlen.
  assert (py_range (len d - len g + 1) = []) as Hrange
    by (apply py_range_nonpos; unfold len; lia).
  split; [done|]. exists d. split; [|done].
  unfold xor_division, xor_pass. rewrite Hrange. simpl. f_equal.
  destruct (decide (length g = 1)) as [Hg|Hg].
  - replace (- (len g - 1))%Z with 0%Z by (unfold len; lia).
    apply py_slice_from_zero.
  - replace (- (len g - 1))%Z with (- Z.of_nat (length g - 1))%Z
      by (unfold len; lia).
    rewrite py_slice_from_neg by lia.
    by replace (length d - (length g - 1)) with 0 by lia.
Qed.

Lemma xor_division_short_dividend_witness :
  py_range (len [1; 0]%Z - len fixture_generator + 1) = []
  ∧ ∃ r, xor_division [1; 0]%Z fixture_generator = Ok r
         ∧ r `suffix_of` [1; 0]%Z ∧ r = [1; 0]%Z.
Proof.
  apply (xor_division_short_dividend [1; 0]%Z fixture_generator);
    [discriminate|simpl; lia].
Defined.

(** C9 (one-element divisor).  For a divisor of length exactly 1 the
    result of [xor_division] is the whole working copy left by the
    division pass, a vector as long as the dividend, and not the empty
    vector of length [len(divisor) - 1 = 0]. *)
Theorem xor_division_unit_divisor (d g : list Z) :
  length g = 1 →
  ∃ w, xor_pass d g = Ok w ∧ xor_division d g = Ok w ∧ length w = length d.
Proof.
  intros Hg.
  destruct (xor_pass_total d g) as (w & Hw & Hlen).
  { intros ->. discriminate Hg. }
  exists w. split; [done|]. split; [|done].
  unfold xor_division. rewrite Hw. simpl. f_equal.
  replace (- (len g - 1))%Z with 0%Z by (unfold len; lia).
  apply py_slice_from_zero.
Qed.

Lemma xor_division_unit_divisor_witness :
  ∃ w, xor_pass [1; 0; 1]%Z [1]%Z = Ok w
       ∧ xor_division [1; 0; 1]%Z [1]%Z = Ok w
       ∧ length w = length [1; 0; 1]%Z.
Proof. apply (xor_division_unit_divisor [1; 0; 1]%Z [1]%Z). reflexivity. Defined.

(** C10 (the syndrome argument matters only through its zero test).  For a
    fixed received vector and generator, two syndrome arguments that agree
    on being all-zero, in particular any two non-zero ones, give the same
    decode result; over the store the two runs are identical, final store
    included. *)
Theorem decoder_syndrome_noninterference (g r s1 s2 : list Z) :
  all_zero s1 = all_zero s2 →
  simple_berlekamp_like_decoder g r s1 = simple_berlekamp_like_decoder g r s2
  ∧ ∀ (σ : gmap positive (list Z)) (lg lr ls1 ls2 : positive),
      σ !! ls1 = Some s1 → σ !! ls2 = Some s2 →
      Heap.simple_berlekamp_like_decoder lg lr ls1 σ
      = Heap.simple_berlekamp_like_decoder lg lr ls2 σ.
Proof.
  intros Hz. split.
  - unfold simple_berlekamp_like_decoder. by rewrite Hz.
  - intros σ lg lr ls1 ls2 H1 H2. unfold Heap.simple_berlekamp_like_decoder.
    rewrite (run_bind_Return _ _ σ (all_zero s1) σ) by by apply list_all_zero_run.
    rewrite (run_bind_Return _ _ σ (all_zero s2) σ) by by apply list_all_zero_run.
    by rewrite Hz.
Qed.

Lemma decoder_syndrome_noninterference_witness :
  simple_berlekamp_like_decoder fixture_generator [1; 1; 0; 1; 0; 1; 1]%Z
    [0; 1; 0]%Z
  = simple_berlekamp_like_decoder fixture_generator [1; 1; 0; 1; 0; 1; 1]%Z
      [1; 1; 1]%Z
  ∧ ∀ (σ : gmap positive (list Z)) (lg lr ls1 ls2 : positive),
      σ !! ls1 = Some [0; 1; 0]%Z → σ !! ls2 = Some [1; 1; 1]%Z →
      Heap.simple_berlekamp_like_decoder lg lr ls1 σ
      = Heap.simple_berlekamp_like_decoder lg lr ls2 σ.
Proof.
  apply (decoder_syndrome_noninterference fixture_generator
           [1; 1; 0; 1; 0; 1; 1]%Z [0; 1; 0]%Z [1; 1; 1]%Z).
  reflexivity.
Defined.


(** * Further properties of the kernel *)

(** ** Closed forms of the division loops *)

Lemma xor_shift_length (g w : list Z) (i k : nat) :
  length (xor_shift g i k w) = length w.
Proof. apply length_imap. Qed.

Lemma xor_shift_lookup (g w : list Z) (i k p : nat) :
  xor_shift g i k w !! p
  = (λ x, if decide (i ≤ p < i + k) then Z.lxor x (g !!! (p - i)) else x)
    <$> w !! p.
Proof. unfold xor_shift. by rewrite list_lookup_imap. Qed.

Lemma xor_shift_zero (g w : list Z) (i : nat) : xor_shift g i 0 w = w.
Proof.
  apply list_eq. intros p. rewrite xor_shift_lookup.
  destruct (w !! p); simpl; [|done]. by rewrite decide_False by lia.
Qed.

(** The inner loop has a closed form as long as it stays in range. *)
Lemma xor_steps_closed (g w : list Z) (i k : nat) :
  k ≤ length g → i + k ≤ length w →
  for_in (seq 0 k) (xor_step g i) w = Ok (xor_shift g i k w).
Proof.
  induction k as [|k IH]; intros Hk Hik.
  { simpl. by rewrite xor_shift_zero. }
  rewrite seq_S, for_in_app, IH by lia. simpl.
  destruct (lookup_lt_is_Some_2 w (i + k)) as [x Hx]; [lia|].
  destruct (lookup_lt_is_Some_2 g k) as [y Hy]; [lia|].
  unfold xor_step, py_get.
  rewrite xor_shift_lookup, Hx. simpl.
  rewrite decide_False by lia. rewrite Hy. simpl.
  rewrite py_set_lt by (rewrite xor_shift_length; lia).
  unfold mbind, result_bind. f_equal.
  apply list_eq. intros p.
  rewrite list_lookup_insert, xor_shift_length, !xor_shift_lookup.
  destruct (decide (i + k = p ∧ i + k < length w)) as [[<- _]|Hp].
  - rewrite Hx. simpl. rewrite decide_True by lia.
    replace (i + k - i) with k by lia.
    by rewrite (list_lookup_total_correct _ _ _ Hy).
  - destruct (w !! p) as [z|] eqn:Hz; simpl; [|done].
    assert (p < length w) by by eapply lookup_lt_Some.
    destruct (decide (i ≤ p < i + k)), (decide (i ≤ p < i + S k)); try done; lia.
Qed.

Lemma row_closed_length (g w : list Z) (i : nat) :
  length (row_closed g i w) = length w.
Proof. unfold row_closed. destruct (_ =? _)%Z; [apply xor_shift_length|done]. Qed.

Lemma xor_row_closed (g w : list Z) (i : nat) :
  g ≠ [] → i + length g ≤ length w →
  xor_row g i w = Ok (row_closed g i w).
Proof.
  intros Hg Hi. assert (0 < length g) by (destruct g; simpl; [done|lia]).
  destruct (lookup_lt_is_Some_2 w i) as [x Hx]; [lia|].
  unfold xor_row, row_closed, py_get.
  rewrite Hx, (list_lookup_total_correct _ _ _ Hx). simpl.
  destruct (x =? 1)%Z; [|done].
  rewrite py_range_len. by apply xor_steps_closed.
Qed.

Lemma pass_closed_length (g d : list Z) (k : nat) :
  length (pass_closed g d k) = length d.
Proof.
  unfold pass_closed. induction k as [|k IH]; [done|].
  by rewrite seq_S, foldl_snoc, row_closed_length.
Qed.

Lemma pass_closed_S (g d : list Z) (k : nat) :
  pass_closed g d (S k) = row_closed g k (pass_closed g d k).
Proof. unfold pass_closed. by rewrite seq_S, foldl_snoc. Qed.

Lemma xor_rows_closed (g d : list Z) (k : nat) :
  g ≠ [] → k ≤ length d + 1 - length g →
  for_in (seq 0 k) (xor_row g) d = Ok (pass_closed g d k).
Proof.
  intros Hg. induction k as [|k IH]; intros Hk; [done|].
  rewrite seq_S, for_in_app, IH by lia. simpl.
  rewrite xor_row_closed by (rewrite ?pass_closed_length; done || lia).
  by rewrite pass_closed_S.
Qed.

(** With a non-empty divisor the division pass is [pass_closed] run over
    the offsets [0 .. len(d) - len(g)]. *)
Lemma xor_pass_closed (d g : list Z) :
  g ≠ [] → xor_pass d g = Ok (pass_closed g d (length d + 1 - length g)).
Proof.
  intros Hg. assert (0 < length g) by (destruct g; simpl; [done|lia]).
  unfold xor_pass, py_range, len.
  replace (Z.to_nat (Z.of_nat (length d) - Z.of_nat (length g) + 1))
    with (length d + 1 - length g) by lia.
  by apply xor_rows_closed.
Qed.

(** ** Bit vectors stay bit vectors *)

(** Checks that a literal vector is a bit vector. *)
Ltac literal_bits :=
  repeat (apply List.Forall_cons; [unfold is_bit; lia|]); apply List.Forall_nil.

Lemma is_bit_lxor (x y : Z) : is_bit x → is_bit y → is_bit (Z.lxor x y).
Proof. intros [-> | ->] [-> | ->]; unfold is_bit; simpl; auto. Qed.

Lemma xor_shift_bits (g w : list Z) (i k : nat) :
  k ≤ length g → Forall is_bit g → Forall is_bit w →
  Forall is_bit (xor_shift g i k w).
Proof.
  intros Hk Hg Hw. apply Forall_lookup. intros p z.
  rewrite xor_shift_lookup. destruct (w !! p) as [x|] eqn:Hx; simpl; [|done].
  intros [= <-]. assert (is_bit x) by by eapply (proj1 (Forall_lookup _ _) Hw).
  case_decide; [|done]. apply is_bit_lxor; [done|].
  destruct (lookup_lt_is_Some_2 g (p - i)) as [y Hy]; [lia|].
  rewrite (list_lookup_total_correct _ _ _ Hy).
  by eapply (proj1 (Forall_lookup _ _) Hg).
Qed.

Lemma row_closed_bits (g w : list Z) (i : nat) :
  Forall is_bit g → Forall is_bit w → Forall is_bit (row_closed g i w).
Proof.
  intros Hg Hw. unfold row_closed.
  destruct (_ =? _)%Z; [by apply xor_shift_bits|done].
Qed.

Lemma pass_closed_bits (g d : list Z) (k : nat) :
  Forall is_bit g → Forall is_bit d → Forall is_bit (pass_closed g d k).
Proof.
  intros Hg Hd. induction k as [|k IH]; [done|].
  rewrite pass_closed_S. by apply row_closed_bits.
Qed.

(** ** Positions the outer loop has passed *)

Lemma row_closed_lookup_lt (g w : list Z) (i p : nat) :
  p < i → row_closed g i w !! p = w !! p.
Proof.
  intros Hp. unfold row_closed. destruct (_ =? _)%Z; [|done].
  rewrite xor_shift_lookup. destruct (w !! p); simpl; [|done].
  by rewrite decide_False by lia.
Qed.

Lemma row_closed_lookup_at (g w : list Z) (i : nat) :
  g !! 0 = Some 1%Z → Forall is_bit w → i < length w →
  row_closed g i w !! i = Some 0%Z.
Proof.
  intros Hg0 Hw Hi. destruct (lookup_lt_is_Some_2 w i Hi) as [x Hx].
  assert (is_bit x) as Hbit by by eapply (proj1 (Forall_lookup _ _) Hw).
  assert (0 < length g) by by eapply lookup_lt_Some.
  unfold row_closed. rewrite (list_lookup_total_correct _ _ _ Hx).
  destruct Hbit as [-> | ->]; simpl; [done|].
  rewrite xor_shift_lookup, Hx. simpl. rewrite decide_True by lia.
  replace (i - i) with 0 by lia.
  by rewrite (list_lookup_total_correct _ _ _ Hg0).
Qed.

Lemma pass_closed_zeros (g d : list Z) (k p : nat) :
  g !! 0 = Some 1%Z → Forall is_bit g → Forall is_bit d →
  k ≤ length d → p < k → pass_closed g d k !! p = Some 0%Z.
Proof.
  intros Hg0 Hg Hd. induction k as [|k IH]; intros Hk Hp; [lia|].
  rewrite pass_closed_S. destruct (decide (p = k)) as [->|Hne].
  - apply row_closed_lookup_at; [done|by apply pass_closed_bits|].
    rewrite pass_closed_length. lia.
  - rewrite row_closed_lookup_lt by lia. apply IH; lia.
Qed.

(** ** Statements about the division *)

(** X1.  [xor_division] raises [IndexError] exactly when the divisor is
    empty, whatever the dividend holds: with a non-empty divisor no index
    of either loop is out of range, and with an empty one the last
    iteration of the outer loop reads one past the end of the copy. *)
Theorem xor_division_raises_iff_empty (d g : list Z) :
  xor_division d g = IndexError ↔ g = [].
Proof.
  split.
  - intros Hraise. destruct (decide (g = [])) as [|Hg]; [done|].
    destruct (xor_division_total d g Hg) as [r Hr]. congruence.
  - intros ->. unfold xor_division. by rewrite xor_pass_empty_divisor.
Qed.

(** X2.  The length of the remainder, for every non-empty divisor: the
    length of the dividend for a one-element divisor, and otherwise the
    smaller of [len(dividend)] and [len(divisor) - 1]. *)
Theorem xor_division_result_length (d g : list Z) :
  g ≠ [] →
  ∃ r, xor_division d g = Ok r
       ∧ length r = if decide (length g = 1) then length d
                    else length d `min` (length g - 1).
Proof.
  intros Hg. assert (0 < length g) by (destruct g; simpl; [done|lia]).
  destruct (xor_pass_total d g Hg) as (w & Hw & Hlen).
  unfold xor_division. rewrite Hw. simpl. eexists. split; [done|].
  case_decide as Hone.
  - replace (- (len g - 1))%Z with 0%Z by (unfold len; lia).
    by rewrite py_slice_from_zero.
  - replace (- (len g - 1))%Z with (- Z.of_nat (length g - 1))%Z
      by (unfold len; lia).
    rewrite py_slice_from_neg by lia. rewrite length_drop. lia.
Qed.

Lemma xor_division_result_length_witness :
  ∃ r, xor_division [1; 0]%Z fixture_generator = Ok r
       ∧ length r = if decide (length fixture_generator = 1)
                    then length [1; 0]%Z
                    else length [1; 0]%Z `min` (length fixture_generator - 1).
Proof. apply (xor_division_result_length [1; 0]%Z fixture_generator). discriminate. Defined.

(** X3.  Dividing a bit vector by a bit vector gives a bit vector: every
    element the code writes is the exclusive or of two bits. *)
Theorem xor_division_bits (d g r : list Z) :
  Forall is_bit d → Forall is_bit g →
  xor_division d g = Ok r → Forall is_bit r.
Proof.
  intros Hd Hg Hr.
  assert (g ≠ []) as Hne by by eapply xor_division_Ok_nonempty.
  unfold xor_division in Hr. rewrite xor_pass_closed in Hr by done.
  injection Hr as <-. apply Forall_drop. by apply pass_closed_bits.
Qed.

Lemma xor_division_bits_witness : Forall is_bit [0; 1; 0]%Z.
Proof.
  apply (xor_division_bits [1; 1; 0; 1; 0; 1; 1]%Z fixture_generator);
    [literal_bits|literal_bits|reflexivity].
Defined.

(** X4.  Long division clears the leading part: for bit vectors and a
    divisor whose first element is 1, every position of the working copy
    at which the divisor was aligned, that is each [p] with
    [p + len(g) <= len(d)], is 0 after the pass.  Everything that is left
    of the dividend is in the remainder. *)
Theorem xor_pass_leading_zeros (d g : list Z) :
  Forall is_bit d → Forall is_bit g → g !! 0 = Some 1%Z →
  ∃ w, xor_pass d g = Ok w
       ∧ ∀ p, p + length g ≤ length d → w !! p = Some 0%Z.
Proof.
  intros Hd Hg Hg0.
  assert (0 < length g) by by eapply lookup_lt_Some.
  assert (g ≠ []) as Hne by (intros ->; simpl in *; lia).
  eexists. split; [by apply xor_pass_closed|].
  intros p Hp. apply pass_closed_zeros; try done; lia.
Qed.

Lemma xor_pass_leading_zeros_witness :
  ∃ w, xor_pass [1; 1; 0; 1; 0; 1; 1]%Z fixture_generator = Ok w
       ∧ ∀ p, p + length fixture_generator ≤ length [1; 1; 0; 1; 0; 1; 1]%Z
              → w !! p = Some 0%Z.
Proof.
  apply (xor_pass_leading_zeros [1; 1; 0; 1; 0; 1; 1]%Z fixture_generator);
    [literal_bits|literal_bits|reflexivity].
Defined.

(** ** The division is linear over exclusive or *)

Lemma lxor_cancel_r (x y g : Z) : Z.lxor (Z.lxor x g) (Z.lxor y g) = Z.lxor x y.
Proof.
  apply Z.bits_inj'. intros n _. rewrite !Z.lxor_spec.
  by destruct (Z.testbit x n), (Z.testbit y n), (Z.testbit g n).
Qed.

Lemma lxor_swap_r (x y g : Z) : Z.lxor (Z.lxor x y) g = Z.lxor (Z.lxor x g) y.
Proof.
  apply Z.bits_inj'. intros n _. rewrite !Z.lxor_spec.
  by destruct (Z.testbit x n), (Z.testbit y n), (Z.testbit g n).
Qed.

Lemma xor_vec_length (a b : list Z) :
  length a = length b → length (xor_vec a b) = length a.
Proof. intros Hlen. unfold xor_vec. rewrite length_zip_with. lia. Qed.

Lemma xor_vec_lookup (a b : list Z) (p : nat) :
  xor_vec a b !! p = (x ← a !! p; y ← b !! p; Some (Z.lxor x y)).
Proof. apply lookup_zip_with. Qed.

Lemma xor_vec_bits (a b : list Z) :
  Forall is_bit a → Forall is_bit b → Forall is_bit (xor_vec a b).
Proof.
  intros Ha Hb. apply Forall_lookup. intros p z. rewrite xor_vec_lookup.
  destruct (a !! p) as [x|] eqn:Hx; simpl; [|done].
  destruct (b !! p) as [y|] eqn:Hy; simpl; [|done].
  intros [= <-]. apply is_bit_lxor.
  - by eapply (proj1 (Forall_lookup _ _) Ha).
  - by eapply (proj1 (Forall_lookup _ _) Hb).
Qed.

(** Two vectors of one length are defined at the same positions. *)
Lemma lookup_same_length (a b : list Z) (p : nat) :
  length a = length b →
  (∃ x y, a !! p = Some x ∧ b !! p = Some y) ∨ (a !! p = None ∧ b !! p = None).
Proof.
  intros Hlen. destruct (decide (p < length a)) as [Hp|Hp].
  - destruct (lookup_lt_is_Some_2 a p Hp) as [x Hx].
    destruct (lookup_lt_is_Some_2 b p) as [y Hy]; [lia|]. left. eauto.
  - right. split; apply lookup_ge_None_2; lia.
Qed.

(** One outer iteration commutes with the exclusive or of two working
    copies: the quotient bit of the sum is the sum of the quotient bits. *)
Lemma row_closed_xor_vec (g a b : list Z) (i : nat) :
  length a = length b → Forall is_bit a → Forall is_bit b → i < length a →
  row_closed g i (xor_vec a b) = xor_vec (row_closed g i a) (row_closed g i b).
Proof.
  intros Hlen Ha Hb Hi.
  destruct (lookup_lt_is_Some_2 a i Hi) as [x Hx].
  destruct (lookup_lt_is_Some_2 b i) as [y Hy]; [lia|].
  assert (is_bit x) as Hbx by by eapply (proj1 (Forall_lookup _ _) Ha).
  assert (is_bit y) as Hby by by eapply (proj1 (Forall_lookup _ _) Hb).
  assert (xor_vec a b !! i = Some (Z.lxor x y)) as Hxy
    by by rewrite xor_vec_lookup, Hx, Hy.
  unfold row_closed.
  rewrite (list_lookup_total_correct _ _ _ Hx),
    (list_lookup_total_correct _ _ _ Hy), (list_lookup_total_correct _ _ _ Hxy).
  apply list_eq. intros p.
  destruct Hbx as [-> | ->], Hby as [-> | ->]; simpl;
    rewrite ?xor_vec_lookup, ?xor_shift_lookup, ?xor_vec_lookup;
    destruct (lookup_same_length a b p Hlen) as [(u & v & -> & ->)|[-> ->]];
    simpl; try done; case_decide; try done; f_equal.
  - apply Z.lxor_assoc.
  - apply lxor_swap_r.
  - symmetry. apply lxor_cancel_r.
Qed.

Lemma pass_closed_xor_vec (g a b : list Z) (k : nat) :
  length a = length b → Forall is_bit a → Forall is_bit b → Forall is_bit g →
  k ≤ length a →
  pass_closed g (xor_vec a b) k
  = xor_vec (pass_closed g a k) (pass_closed g b k).
Proof.
  intros Hlen Ha Hb Hg. induction k as [|k IH]; intros Hk; [done|].
  rewrite !pass_closed_S, IH by lia.
  apply row_closed_xor_vec.
  - by rewrite !pass_closed_length.
  - by apply pass_closed_bits.
  - by apply pass_closed_bits.
  - rewrite pass_closed_length. lia.
Qed.

Lemma py_slice_from_xor_vec (start : Z) (a b : list Z) :
  length a = length b →
  py_slice_from start (xor_vec a b)
  = xor_vec (py_slice_from start a) (py_slice_from start b).
Proof.
  intros Hlen. unfold py_slice_from, len.
  rewrite xor_vec_length, <- Hlen by done. apply zip_with_drop.
Qed.

Lemma py_slice_from_length_eq (start : Z) (a b : list Z) :
  length a = length b →
  length (py_slice_from start a) = length (py_slice_from start b).
Proof.
  intros Hlen. unfold py_slice_from, len. rewrite !length_drop, Hlen. done.
Qed.

(** The remainder of an exclusive or is the exclusive or of the
    remainders. *)
Lemma xor_division_xor_vec (a b g : list Z) :
  Forall is_bit a → Forall is_bit b → Forall is_bit g →
  length a = length b → g ≠ [] →
  ∃ sa sb, xor_division a g = Ok sa ∧ xor_division b g = Ok sb
           ∧ length sa = length sb
           ∧ xor_division (xor_vec a b) g = Ok (xor_vec sa sb).
Proof.
  intros Ha Hb Hg Hlen Hne.
  assert (0 < length g) by (destruct g; simpl; [done|lia]).
  unfold xor_division. rewrite !xor_pass_closed by done. simpl.
  do 2 eexists. split; [done|]. split; [done|]. split.
  - apply py_slice_from_length_eq. by rewrite !pass_closed_length.
  - f_equal. rewrite xor_vec_length, <- Hlen by done.
    rewrite pass_closed_xor_vec by (done || lia).
    apply py_slice_from_xor_vec. by rewrite !pass_closed_length.
Qed.

Lemma all_zero_Forall (s : list Z) : all_zero s = true ↔ Forall (λ x, x = 0%Z) s.
Proof.
  unfold all_zero. induction s as [|x s IH]; simpl.
  - split; [constructor|done].
  - rewrite andb_true_iff, Z.eqb_eq, IH, List.Forall_cons_iff. done.
Qed.

Lemma xor_vec_zero_l (a b : list Z) :
  all_zero a = true → length a = length b → xor_vec a b = b.
Proof.
  intros Hz%all_zero_Forall Hlen. apply list_eq. intros p.
  rewrite xor_vec_lookup.
  destruct (lookup_same_length a b p Hlen) as [(x & y & Hx & Hy)|[-> ->]];
    [|done].
  rewrite Hx, Hy. simpl.
  by rewrite (proj1 (Forall_lookup _ _) Hz p x Hx).
Qed.

(** The exclusive or of two bit vectors of one length is all-zero exactly
    when they are equal. *)
Lemma all_zero_xor_vec (a b : list Z) :
  length a = length b → all_zero (xor_vec a b) = true ↔ a = b.
Proof.
  intros Hlen. rewrite all_zero_Forall, Forall_lookup. split.
  - intros Hz. apply list_eq. intros p.
    destruct (lookup_same_length a b p Hlen) as [(x & y & Hx & Hy)|[-> ->]];
      [|done].
    rewrite Hx, Hy. f_equal. apply Z.lxor_eq. apply (Hz p).
    by rewrite xor_vec_lookup, Hx, Hy.
  - intros <- p z. rewrite xor_vec_lookup.
    destruct (a !! p) as [x|]; simpl; [|done].
    intros [= <-]. apply Z.lxor_nilpotent.
Qed.

(** X5.  The syndrome is linear: for bit vectors [a] and [b] of one length
    and a non-empty bit generator, the syndrome of the element-wise
    exclusive or of [a] and [b] is the exclusive or of their syndromes. *)
Theorem compute_syndrome_linear (a b g : list Z) :
  Forall is_bit a → Forall is_bit b → Forall is_bit g →
  length a = length b → g ≠ [] →
  ∃ sa sb, compute_syndrome a g = Ok sa ∧ compute_syndrome b g = Ok sb
           ∧ compute_syndrome (xor_vec a b) g = Ok (xor_vec sa sb).
Proof.
  intros Ha Hb Hg Hlen Hne.
  destruct (xor_division_xor_vec a b g) as (sa & sb & ? & ? & ? & ?); try done.
  by exists sa, sb.
Qed.

Lemma compute_syndrome_linear_witness :
  ∃ sa sb,
    compute_syndrome [1; 1; 0; 1; 0; 1; 1]%Z fixture_generator = Ok sa
    ∧ compute_syndrome [0; 0; 1; 0; 0; 0; 1]%Z fixture_generator = Ok sb
    ∧ compute_syndrome
        (xor_vec [1; 1; 0; 1; 0; 1; 1]%Z [0; 0; 1; 0; 0; 0; 1]%Z)
        fixture_generator = Ok (xor_vec sa sb).
Proof.
  apply (compute_syndrome_linear [1; 1; 0; 1; 0; 1; 1]%Z
           [0; 0; 1; 0; 0; 0; 1]%Z fixture_generator);
    [literal_bits|literal_bits|literal_bits|reflexivity|discriminate].
Defined.

(** X6.  The syndrome sees the error only: if the bit vector [c] has an
    all-zero syndrome, then for every bit vector [e] of the same length
    the syndrome of [c] xor [e] is the syndrome of [e]. *)
Theorem compute_syndrome_codeword_plus_error (c e g sc : list Z) :
  Forall is_bit c → Forall is_bit e → Forall is_bit g →
  length c = length e →
  compute_syndrome c g = Ok sc → all_zero sc = true →
  compute_syndrome (xor_vec c e) g = compute_syndrome e g.
Proof.
  intros Hc He Hg Hlen Hsc Hz.
  assert (g ≠ []) as Hne by by eapply xor_division_Ok_nonempty.
  destruct (xor_division_xor_vec c e g) as (sa & sb & Ha & Hb & Hl & Hab);
    try done.
  unfold compute_syndrome in *. rewrite Hab, Hb. f_equal.
  assert (sa = sc) as -> by congruence. by apply xor_vec_zero_l.
Qed.

Lemma compute_syndrome_codeword_plus_error_witness :
  compute_syndrome (xor_vec fixture_received [0; 0; 0; 0; 0; 1; 0]%Z)
    fixture_generator
  = compute_syndrome [0; 0; 0; 0; 0; 1; 0]%Z fixture_generator.
Proof.
  apply (compute_syndrome_codeword_plus_error fixture_received
           [0; 0; 0; 0; 0; 1; 0]%Z fixture_generator [0; 0; 0]%Z);
    [literal_bits|literal_bits|literal_bits|reflexivity..].
Defined.

(** ** Syndrome decoding *)

Lemma unit_vec_length (n i : nat) : length (unit_vec n i) = n.
Proof. unfold unit_vec. by rewrite length_insert, length_replicate. Qed.

Lemma unit_vec_bits (n i : nat) : Forall is_bit (unit_vec n i).
Proof.
  unfold unit_vec. apply Forall_insert; [|by right].
  apply Forall_replicate. by left.
Qed.

(** Flipping bit [i] is the exclusive or with the unit vector of [i]. *)
Lemma flip_bit_unit_vec (r : list Z) (i : nat) :
  i < length r → flip_bit r i = Ok (xor_vec r (unit_vec (length r) i)).
Proof.
  intros Hi. destruct (lookup_lt_is_Some_2 r i Hi) as [x Hx].
  apply flip_bit_Ok. exists x. split; [done|].
  apply list_eq. intros p. rewrite xor_vec_lookup. unfold unit_vec.
  rewrite !list_lookup_insert, length_replicate.
  destruct (decide (i = p ∧ i < length r)) as [[<- _]|Hp].
  - by rewrite Hx.
  - destruct (r !! p) as [y|] eqn:Hy; simpl; [|done].
    rewrite lookup_replicate_2 by by eapply lookup_lt_Some.
    simpl. by rewrite Z.lxor_0_r.
Qed.

Lemma flip_clears_unit_vec (g r sr se : list Z) (i : nat) :
  Forall is_bit r → Forall is_bit g → i < length r →
  compute_syndrome r g = Ok sr →
  compute_syndrome (unit_vec (length r) i) g = Ok se →
  length sr = length se ∧ flip_clears g r i = all_zero (xor_vec sr se).
Proof.
  intros Hr Hg Hi Hsr Hse.
  assert (g ≠ []) as Hne by by eapply xor_division_Ok_nonempty.
  destruct (xor_division_xor_vec r (unit_vec (length r) i) g)
    as (sa & sb & Ha & Hb & Hl & Hab); try done.
  { apply unit_vec_bits. }
  { by rewrite unit_vec_length. }
  unfold compute_syndrome in *.
  assert (sa = sr) as -> by congruence. assert (sb = se) as -> by congruence.
  split; [done|]. unfold flip_clears, compute_syndrome.
  rewrite flip_bit_unit_vec by done. simpl. by rewrite Hab.
Qed.

(** X7.  Syndrome decoding: for a bit vector [r], a non-empty bit
    generator and an index [i] of [r], flipping bit [i] clears the
    syndrome exactly when the syndrome of [r] is the syndrome of the unit
    vector with its 1 at position [i]. *)
Theorem flip_clears_iff_unit_syndrome (g r : list Z) (i : nat) :
  Forall is_bit r → Forall is_bit g → g ≠ [] → i < length r →
  flip_clears g r i = true
  ↔ compute_syndrome r g = compute_syndrome (unit_vec (length r) i) g.
Proof.
  intros Hr Hg Hne Hi.
  destruct (xor_division_total r g Hne) as [sr Hsr].
  destruct (xor_division_total (unit_vec (length r) i) g Hne) as [se Hse].
  destruct (flip_clears_unit_vec g r sr se i) as [Hlen ->]; try done.
  unfold compute_syndrome. rewrite Hsr, Hse, all_zero_xor_vec by done.
  split; [by intros ->|by intros [= ->]].
Qed.

Lemma flip_clears_iff_unit_syndrome_witness :
  flip_clears fixture_generator [1; 1; 0; 1; 0; 1; 1]%Z 5 = true
  ↔ compute_syndrome [1; 1; 0; 1; 0; 1; 1]%Z fixture_generator
    = compute_syndrome (unit_vec (length [1; 1; 0; 1; 0; 1; 1]%Z) 5)
        fixture_generator.
Proof.
  apply (flip_clears_iff_unit_syndrome fixture_generator
           [1; 1; 0; 1; 0; 1; 1]%Z 5);
    [literal_bits|literal_bits|discriminate|simpl; lia].
Defined.

Lemma find_ext_in {A} (f f' : A → bool) (l : list A) :
  (∀ x, x ∈ l → f x = f' x) → find f l = find f' l.
Proof.
  induction l as [|x l IH]; intros Hext; [done|]. simpl.
  rewrite <- (Hext x) by left. destruct (f x); [done|].
  apply IH. intros y Hy. apply Hext. by right.
Qed.

(** X8.  The decoder's report is a function of the syndrome: two received
    bit vectors of one length that have the same syndrome under a
    non-empty bit generator get the same status label, in particular the
    same correction position. *)
Theorem decoder_report_determined_by_syndrome (g r1 r2 s : list Z) :
  Forall is_bit r1 → Forall is_bit r2 → Forall is_bit g → g ≠ [] →
  length r1 = length r2 →
  compute_syndrome r1 g = compute_syndrome r2 g →
  ∃ v1 v2 msg,
    simple_berlekamp_like_decoder g r1 s = Ok (v1, msg)
    ∧ simple_berlekamp_like_decoder g r2 s = Ok (v2, msg).
Proof.
  intros H1 H2 Hg Hne Hlen Hsyn.
  rewrite !decoder_decode_spec by done. unfold decode_spec.
  destruct (all_zero s); [by eauto|].
  rewrite <- Hlen.
  rewrite (find_ext_in (λ i, flip_clears g r2 i) (λ i, flip_clears g r1 i)).
  { destruct (find _ _); eauto. }
  intros i Hi%elem_of_seq.
  destruct (xor_division_total r1 g Hne) as [sr Hsr].
  destruct (xor_division_total (unit_vec (length r1) i) g Hne) as [se Hse].
  destruct (flip_clears_unit_vec g r1 sr se i) as [_ ->]; try done; [lia|].
  destruct (flip_clears_unit_vec g r2 sr se i) as [_ ->]; try done; [lia| |].
  - unfold compute_syndrome in *. by rewrite <- Hsyn.
  - by rewrite <- Hlen.
Qed.

Lemma decoder_report_determined_by_syndrome_witness :
  ∃ v1 v2 msg,
    simple_berlekamp_like_decoder fixture_generator
      [1; 1; 0; 1; 0; 1; 1]%Z [0; 1; 0]%Z = Ok (v1, msg)
    ∧ simple_berlekamp_like_decoder fixture_generator
        [0; 0; 0; 0; 0; 1; 0]%Z [0; 1; 0]%Z = Ok (v2, msg).
Proof.
  apply (decoder_report_determined_by_syndrome fixture_generator
           [1; 1; 0; 1; 0; 1; 1]%Z [0; 0; 0; 0; 0; 1; 0]%Z [0; 1; 0]%Z);
    [literal_bits|literal_bits|literal_bits|discriminate|reflexivity..].
Defined.

(** * Further properties of the decoder *)

(** ** Status labels *)

Lemma msg_corrected_unable (i : nat) : msg_corrected i ≠ msg_unable.
Proof. discriminate. Qed.

Lemma msg_corrected_no_error (i : nat) : msg_corrected i ≠ msg_no_error.
Proof. discriminate. Qed.

Lemma msg_no_error_unable : msg_no_error ≠ msg_unable.
Proof. discriminate. Qed.

Lemma msg_corrected_inj (i j : nat) : msg_corrected i = msg_corrected j → i = j.
Proof.
  unfold msg_corrected. intros Heq.
  apply (inj pretty). by eapply (inj (String.append _)).
Qed.

(** ** What the search can return *)

Lemma flip_search_result (g r v : list Z) (msg : string) (indices : list nat) :
  flip_search g r indices = Ok (v, msg) →
  (v = r ∧ msg = msg_unable)
  ∨ ∃ i s, i ∈ indices ∧ flip_bit r i = Ok v ∧ compute_syndrome v g = Ok s
           ∧ all_zero s = true ∧ msg = msg_corrected i.
Proof.
  induction indices as [|i indices IH]; simpl.
  { intros [= <- <-]. by left. }
  destruct (flip_bit r i) as [t|] eqn:Ht; simpl; [|done].
  destruct (compute_syndrome t g) as [s|] eqn:Hs; simpl; [|done].
  destruct (all_zero s) eqn:Hz.
  - intros [= <- <-]. right. exists i, s. repeat split; try done. left.
  - intros Hrest. destruct (IH Hrest) as [?|(j & s' & Hj & ?)]; [by left|].
    right. exists j, s'. split; [by right|done].
Qed.

Lemma decoder_result (g r s v : list Z) (msg : string) :
  simple_berlekamp_like_decoder g r s = Ok (v, msg) →
  (all_zero s = true ∧ v = r ∧ msg = msg_no_error)
  ∨ (all_zero s = false ∧ v = r ∧ msg = msg_unable)
  ∨ (all_zero s = false
     ∧ ∃ i sv, i < length r ∧ flip_bit r i = Ok v
               ∧ compute_syndrome v g = Ok sv ∧ all_zero sv = true
               ∧ msg = msg_corrected i).
Proof.
  unfold simple_berlekamp_like_decoder. destruct (all_zero s).
  - intros [= <- <-]. by left.
  - intros [[-> ->]|(i & sv & Hi & Hv & ?)]%flip_search_result; right.
    + by left.
    + right. split; [done|]. exists i, sv. split; [|done].
      by apply flip_bit_Ok_lt in Hv as [? _].
Qed.

(** X9.  The decoder changes at most one element: it returns either the
    received vector itself, or the received vector with the element at
    one position [i] xor-ed with 1 and the label naming that [i]. *)
Theorem decoder_changes_at_most_one_element (g r s v : list Z) (msg : string) :
  simple_berlekamp_like_decoder g r s = Ok (v, msg) →
  v = r ∨ ∃ i x, r !! i = Some x ∧ v = <[i:=Z.lxor x 1]> r
                 ∧ msg = msg_corrected i.
Proof.
  intros [(_ & -> & _)|[(_ & -> & _)|(_ & i & sv & _ & Hv & _ & _ & ->)]]
    %decoder_result; [by left..|].
  right. apply flip_bit_Ok in Hv as (x & Hx & ->). by exists i, x.
Qed.

Lemma decoder_changes_at_most_one_element_witness :
  fixture_received = [1; 1; 0; 1; 0; 1; 1]%Z
  ∨ ∃ i x, [1; 1; 0; 1; 0; 1; 1]%Z !! i = Some x
           ∧ fixture_received = <[i:=Z.lxor x 1]> [1; 1; 0; 1; 0; 1; 1]%Z
           ∧ msg_corrected 5 = msg_corrected i.
Proof.
  apply (decoder_changes_at_most_one_element fixture_generator
           [1; 1; 0; 1; 0; 1; 1]%Z [0; 1; 0]%Z fixture_received
           (msg_corrected 5)).
  reflexivity.
Defined.

(** X10.  What the decoder hands back is clean: when it is given the
    syndrome of the received vector and does not report "Unable to
    correct", the returned vector has an all-zero syndrome, and decoding
    it again reports "No error detected" and returns it unchanged. *)
Theorem decoder_output_decodes_clean (g r s v : list Z) (msg : string) :
  compute_syndrome r g = Ok s →
  simple_berlekamp_like_decoder g r s = Ok (v, msg) →
  msg ≠ msg_unable →
  ∃ sv, compute_syndrome v g = Ok sv ∧ all_zero sv = true
        ∧ simple_berlekamp_like_decoder g v sv = Ok (v, msg_no_error).
Proof.
  intros Hs Hrun Hmsg.
  apply decoder_result in Hrun
    as [(Hz & -> & _)|[(_ & _ & ->)|(_ & i & sv & _ & _ & Hsv & Hz & _)]].
  - exists s. unfold simple_berlekamp_like_decoder. by rewrite Hz.
  - done.
  - exists sv. unfold simple_berlekamp_like_decoder. by rewrite Hz.
Qed.

Lemma decoder_output_decodes_clean_witness :
  ∃ sv, compute_syndrome fixture_received fixture_generator = Ok sv
        ∧ all_zero sv = true
        ∧ simple_berlekamp_like_decoder fixture_generator fixture_received sv
          = Ok (fixture_received, msg_no_error).
Proof.
  apply (decoder_output_decodes_clean fixture_generator
           [1; 1; 0; 1; 0; 1; 1]%Z [0; 1; 0]%Z fixture_received
           (msg_corrected 5)); [reflexivity|reflexivity|discriminate].
Defined.

(** X11.  "Unable to correct" is reported exactly when it is true: with a
    non-empty generator the decoder returns that label if and only if the
    syndrome it was given is not all-zero and no single flip of the
    received vector clears the syndrome. *)
Theorem decoder_unable_iff (g r s : list Z) :
  g ≠ [] →
  (∃ v, simple_berlekamp_like_decoder g r s = Ok (v, msg_unable))
  ↔ all_zero s = false ∧ ∀ j, j < length r → flip_clears g r j = false.
Proof.
  intros Hg. split.
  - intros [v Hrun]. rewrite decoder_decode_spec in Hrun by done.
    unfold decode_spec in Hrun. destruct (all_zero s); [done|].
    split; [done|]. intros j Hj.
    destruct (find _ _) as [i|] eqn:Hfind.
    + assert (msg_corrected i = msg_unable) as Hmsg by congruence.
      by apply msg_corrected_unable in Hmsg.
    + apply (find_none _ _ Hfind j), in_seq. lia.
  - intros [Hz Hall]. exists r. unfold simple_berlekamp_like_decoder.
    rewrite Hz. by apply flip_search_none.
Qed.

Lemma decoder_unable_iff_witness :
  (∃ v, simple_berlekamp_like_decoder fixture_generator [0; 1; 1; 1]%Z
          [1; 1; 1]%Z = Ok (v, msg_unable))
  ↔ all_zero [1; 1; 1]%Z = false
    ∧ ∀ j, j < length [0; 1; 1; 1]%Z
           → flip_clears fixture_generator [0; 1; 1; 1]%Z j = false.
Proof.
  apply (decoder_unable_iff fixture_generator [0; 1; 1; 1]%Z [1; 1; 1]%Z).
  discriminate.
Defined.

(** X12.  The decoder raises [IndexError] in one situation only: the
    generator is empty, the syndrome it was given is not all-zero and the
    received vector is not empty, so that the first trial division runs. *)
Theorem decoder_raises_iff (g r s : list Z) :
  simple_berlekamp_like_decoder g r s = IndexError
  ↔ g = [] ∧ all_zero s = false ∧ r ≠ [].
Proof.
  split.
  - intros Hraise. destruct (decide (g = [])) as [->|Hg].
    + unfold simple_berlekamp_like_decoder in Hraise.
      destruct (all_zero s); [done|]. repeat split; try done.
      intros ->. done.
    + by rewrite decoder_decode_spec in Hraise.
  - intros (-> & Hz & Hr). unfold simple_berlekamp_like_decoder. rewrite Hz.
    destruct r as [|x r]; [done|]. rewrite py_range_len. simpl.
    unfold compute_syndrome, xor_division.
    by rewrite xor_pass_empty_divisor.
Qed.

(** X13.  The status label tells the outcome and the position: the three
    kinds of label are pairwise different, and two correction labels are
    equal only for the same position. *)
Theorem status_labels_distinct (i j : nat) :
  msg_no_error ≠ msg_unable
  ∧ msg_corrected i ≠ msg_no_error
  ∧ msg_corrected i ≠ msg_unable
  ∧ (msg_corrected i = msg_corrected j ↔ i = j).
Proof.
  split; [apply msg_no_error_unable|].
  split; [apply msg_corrected_no_error|].
  split; [apply msg_corrected_unable|].
  split; [apply msg_corrected_inj|by intros ->].
Qed.

(** * Further properties of the store model *)

Lemma run_bind_inv {A B} (m : Heap.M A) (k : A → Heap.M B)
    (σ σ' : gmap positive (list Z)) (b : B) :
  (m ≫= k) σ = (Heap.Return b, σ') →
  ∃ a σ1, m σ = (Heap.Return a, σ1) ∧ k a σ1 = (Heap.Return b, σ').
Proof.
  unfold mbind, Heap.M_bind. destruct (m σ) as [[a| |] σ1]; [|done..].
  intros Hk. by exists a, σ1.
Qed.

(** What [keeps] says about one run with a known result. *)
Lemma keeps_run {A} (σ0 σ σ' : gmap positive (list Z)) (Q : A → Prop)
    (m : Heap.M A) (a : A) :
  keeps σ0 Q m → σ0 ⊆ σ → m σ = (Heap.Return a, σ') → σ0 ⊆ σ' ∧ Q a.
Proof.
  intros Hm Hσ Hrun. destruct (Hm σ Hσ) as [Hsub HQ].
  rewrite Hrun in Hsub, HQ. split; [done|]. by apply HQ.
Qed.

Lemma heap_flip_search_alias (σ0 : gmap positive (list Z)) (lg lr : positive)
    (indices : list nat) :
  ∀ (σ σ' : gmap positive (list Z)) (l : positive) (msg : string),
    σ0 ⊆ σ →
    Heap.flip_search lg lr indices σ = (Heap.Return (l, msg), σ') →
    (l = lr ∧ msg = msg_unable) ∨ (σ0 !! l = None ∧ ∃ i, msg = msg_corrected i).
Proof.
  induction indices as [|i indices IH]; intros σ σ' l msg Hσ; simpl.
  { intros [= <- <- _]. by left. }
  intros (test & σ1 & Hcopy & Hrun)%run_bind_inv.
  destruct (keeps_run σ0 σ σ1 _ _ _ (keeps_copy σ0 lr) Hσ Hcopy) as [Hσ1 Htest].
  apply run_bind_inv in Hrun as (x & σ2 & Hget & Hrun).
  destruct (keeps_run σ0 σ1 σ2 _ _ _ (keeps_getitem σ0 test i) Hσ1 Hget)
    as [Hσ2 _].
  apply run_bind_inv in Hrun as (u & σ3 & Hset & Hrun).
  destruct (keeps_run σ0 σ2 σ3 _ _ _
              (keeps_setitem σ0 test i (Z.lxor x 1) Htest) Hσ2 Hset)
    as [Hσ3 _].
  apply run_bind_inv in Hrun as (ls & σ4 & Hsyn & Hrun).
  destruct (keeps_run σ0 σ3 σ4 _ _ _ (keeps_xor_division σ0 test lg) Hσ3 Hsyn)
    as [Hσ4 _].
  apply run_bind_inv in Hrun as (z & σ5 & Hz & Hrun).
  destruct (keeps_run σ0 σ4 σ5 _ _ _ (keeps_all_zero σ0 ls) Hσ4 Hz)
    as [Hσ5 _].
  destruct z.
  - injection Hrun as <- <- _. right. eauto.
  - by eapply IH.
Qed.

(** X14.  Which object the decoder returns: with "No error detected" and
    with "Unable to correct" it is the very list object it was given as
    [received], so a caller that changes the result changes its input;
    with a correction it is a list that did not exist before the call. *)
Theorem decoder_returns_alias_or_new (σ : gmap positive (list Z))
    (lg lr ls l : positive) (msg : string) :
  (Heap.simple_berlekamp_like_decoder lg lr ls σ).1 = Heap.Return (l, msg) →
  (l = lr ∧ (msg = msg_no_error ∨ msg = msg_unable))
  ∨ (σ !! l = None ∧ ∃ i, msg = msg_corrected i).
Proof.
  destruct (Heap.simple_berlekamp_like_decoder lg lr ls σ) as [o σ'] eqn:Hrun.
  simpl. intros ->. unfold Heap.simple_berlekamp_like_decoder in Hrun.
  apply run_bind_inv in Hrun as (z & σ1 & Hz & Hrun).
  destruct (keeps_run σ σ σ1 _ _ _ (keeps_all_zero σ ls) (reflexivity σ) Hz)
    as [Hσ1 _].
  destruct z.
  - injection Hrun as <- <- _. left. eauto.
  - apply run_bind_inv in Hrun as (n & σ2 & Hn & Hrun).
    destruct (keeps_run σ σ1 σ2 _ _ _ (keeps_len σ lr) Hσ1 Hn) as [Hσ2 _].
    destruct (heap_flip_search_alias σ lg lr _ _ _ _ _ Hσ2 Hrun)
      as [[-> ->]|?]; [left|right]; eauto.
Qed.

Lemma decoder_returns_alias_or_new_witness :
  (1%positive = 1%positive
   ∧ (msg_unable = msg_no_error ∨ msg_unable = msg_unable))
  ∨ (({[ 1%positive := [0; 1; 1; 1]%Z; 2%positive := fixture_generator;
         3%positive := [1; 1; 1]%Z ]} : gmap positive (list Z)) !! 1%positive
     = None
     ∧ ∃ i, msg_unable = msg_corrected i).
Proof.
  apply (decoder_returns_alias_or_new
           {[ 1%positive := [0; 1; 1; 1]%Z; 2%positive := fixture_generator;
              3%positive := [1; 1; 1]%Z ]}
           2%positive 1%positive 3%positive 1%positive msg_unable).
  vm_compute. reflexivity.
Defined.

(** X15.  The remainder is a list of its own: run on a dividend and a
    non-empty divisor that exist in the store, [xor_division] returns a
    reference that did not exist before the call, different from both
    inputs, and the new list holds the remainder of the value-level
    division. *)
Theorem xor_division_returns_new_list (σ : gmap positive (list Z))
    (ld lg : positive) (d g : list Z) :
  σ !! ld = Some d → σ !! lg = Some g → g ≠ [] →
  ∃ l r, (Heap.xor_division ld lg σ).1 = Heap.Return l
         ∧ l ≠ ld ∧ l ≠ lg ∧ σ !! l = None
         ∧ xor_division d g = Ok r
         ∧ (Heap.xor_division ld lg σ).2 !! l = Some r.
Proof.
  intros Hd Hg Hne.
  destruct (xor_division_computes σ ld lg d g Hd Hg) as [_ Hres].
  destruct (xor_division_total d g Hne) as [r Hr]. rewrite Hr in Hres.
  destruct Hres as (l & Hl & Hnew & Hlr).
  exists l, r. repeat split; try done; congruence.
Qed.

Lemma xor_division_returns_new_list_witness :
  ∃ l r,
    (Heap.xor_division 1%positive 2%positive
       {[ 1%positive := [1; 1; 0; 1; 0; 1; 1]%Z;
          2%positive := fixture_generator ]}).1 = Heap.Return l
    ∧ l ≠ 1%positive ∧ l ≠ 2%positive
    ∧ ({[ 1%positive := [1; 1; 0; 1; 0; 1; 1]%Z;
          2%positive := fixture_generator ]} : gmap positive (list Z)) !! l
      = None
    ∧ xor_division [1; 1; 0; 1; 0; 1; 1]%Z fixture_generator = Ok r
    ∧ (Heap.xor_division 1%positive 2%positive
         {[ 1%positive := [1; 1; 0; 1; 0; 1; 1]%Z;
            2%positive := fixture_generator ]}).2 !! l = Some r.
Proof.
  apply (xor_division_returns_new_list
           {[ 1%positive := [1; 1; 0; 1; 0; 1; 1]%Z;
              2%positive := fixture_generator ]}
           1%positive 2%positive [1; 1; 0; 1; 0; 1; 1]%Z fixture_generator);
    [reflexivity|reflexivity|discriminate].
Defined.


(** * The script around the kernel *)


Lemma list_ascii_of_string_length (text : string) :
  length (String.list_ascii_of_string text) = String.length text.
Proof. induction text as [|c text IH]; simpl; [done|]. by rewrite IH. Qed.

Lemma parse_bits_length (text : string) (l : list Z) :
  parse_bits text = Some l → length l = String.length text.
Proof.
  intros Hl%length_mapM. by rewrite <- Hl, list_ascii_of_string_length.
Qed.

Lemma parse_bits_empty (text : string) :
  parse_bits text = Some [] ↔ text = String.EmptyString.
Proof.
  split.
  - intros Hl%parse_bits_length. by destruct text.
  - by intros ->.
Qed.


(** X17.  The script raises [IndexError] in its kernel exactly when the
    generator text is empty and the received text parses: with any
    non-empty generator of digits neither the syndrome computation nor
    the decoder goes out of range. *)
Theorem script_kernel_raises_IndexError_iff (generator_text received_str : string) :
  script_kernel generator_text received_str = RaisedIndexError
  ↔ generator_text = String.EmptyString ∧ is_Some (parse_bits received_str).
Proof.
  unfold script_kernel. split.
  - destruct (parse_bits generator_text) as [g|] eqn:Hg; [|done].
    destruct (parse_bits received_str) as [r|] eqn:Hr; [|done].
    destruct (decide (g = [])) as [->|Hne].
    { intros _. split; [by apply parse_bits_empty|done]. }
    destruct (xor_division_total r g Hne) as [s Hs].
    unfold compute_syndrome. rewrite Hs.
    rewrite decoder_decode_spec by done. by destruct (decode_spec g r s).
  - intros [-> [r Hr]]. rewrite Hr. simpl.
    unfold compute_syndrome, xor_division.
    by rewrite xor_pass_empty_divisor.
Qed.

(** X18.  For a non-empty generator text and a received text, both of
    decimal digits, the script completes: the syndrome it shows is the one
    the decoder was given, the corrected vector is as long as the received
    text, and the label is "No error detected" exactly when the syndrome is
    all-zero. *)
Theorem script_kernel_completes (generator_text received_str : string)
    (generator received : list Z) :
  parse_bits generator_text = Some generator →
  parse_bits received_str = Some received →
  generator_text ≠ String.EmptyString →
  ∃ syndrome corrected message,
    script_kernel generator_text received_str
    = Completed (syndrome, corrected, message)
    ∧ compute_syndrome received generator = Ok syndrome
    ∧ length corrected = String.length received_str
    ∧ (message = msg_no_error ↔ all_zero syndrome = true).
Proof.
  intros Hg Hr Hne. unfold script_kernel. rewrite Hg, Hr.
  assert (generator ≠ []) as Hgne.
  { intros ->. by apply parse_bits_empty in Hg. }
  destruct (xor_division_total received generator Hgne) as [s Hs].
  unfold compute_syndrome. rewrite Hs.
  destruct (simple_berlekamp_like_decoder generator received s)
    as [[v msg]|] eqn:Hrun.
  2:{ by rewrite decoder_decode_spec in Hrun. }
  exists s, v, msg. split; [done|]. split; [done|].
  apply parse_bits_length in Hr. rewrite <- Hr.
  apply decoder_result in Hrun
    as [(Hz & -> & ->)|[(Hz & -> & ->)|(Hz & i & sv & _ & Hv & _ & _ & ->)]].
  - done.
  - split; [done|]. rewrite Hz. split; [|done].
    intros Hmsg. symmetry in Hmsg. by apply msg_no_error_unable in Hmsg.
  - split; [by apply flip_bit_Ok_lt in Hv as [_ ->]|]. rewrite Hz.
    split; [|done]. intros Hmsg. by apply msg_corrected_no_error in Hmsg.
Qed.

Lemma script_kernel_completes_witness :
  ∃ syndrome corrected message,
    script_kernel "1011" "1101001" = Completed (syndrome, corrected, message)
    ∧ compute_syndrome fixture_received fixture_generator = Ok syndrome
    ∧ length corrected = String.length "1101001"
    ∧ (message = msg_no_error ↔ all_zero syndrome = true).
Proof.
  apply (script_kernel_completes "1011" "1101001" fixture_generator
           fixture_received); [reflexivity|reflexivity|discriminate].
Defined.

(** ** The circuit and the Bloch vector *)

Lemma gates_foldl (l : list (nat * Z)) (acc : list nat) :
  foldl (λ qc '(i, b), if (b =? 1)%Z then qc ++ [i] else qc) acc l
  = acc ++ (fst <$> filter (λ p, p.2 = 1%Z) l).
Proof.
  revert acc. induction l as [|[i b] l IH]; intros acc; simpl.
  { by rewrite app_nil_r. }
  rewrite IH, filter_cons. simpl. destruct (Z.eqb_spec b 1) as [->|Hb].
  - rewrite decide_True by done. simpl. by rewrite <- app_assoc.
  - by rewrite decide_False by done.
Qed.

Lemma quantum_visualization_gates_elem (bits : list Z) (i : nat) :
  i ∈ quantum_visualization_gates bits ↔ bits !! i = Some 1%Z.
Proof.
  unfold quantum_visualization_gates. rewrite gates_foldl. simpl.
  rewrite list_elem_of_fmap. split.
  - intros ([j b] & -> & [Hb Hin]%list_elem_of_filter). simpl in *. subst b.
    apply list_elem_of_lookup in Hin as [k Hk].
    rewrite list_lookup_imap in Hk.
    destruct (bits !! k) as [b|] eqn:Hbk; simpl in Hk; [|done].
    by injection Hk as <- <-.
  - intros Hi. exists (i, 1%Z). split; [done|].
    apply list_elem_of_filter. split; [done|].
    apply list_elem_of_lookup. exists i. by rewrite list_lookup_imap, Hi.
Qed.

(** X19.  The circuit has an X gate on qubit [i] exactly when [bits[i]] is
    1; an element with any other value, and any index outside the vector,
    gets no gate. *)
Theorem quantum_visualization_gate_iff (bits : list Z) (i : nat) :
  i ∈ quantum_visualization_gates bits ↔ bits !! i = Some 1%Z.
Proof. apply quantum_visualization_gates_elem. Qed.

(** X20.  When the first element of the received vector is a bit, the
    Bloch vector on display agrees with the circuit: it points to the
    south pole exactly when qubit 0 carries an X gate, and to the north
    pole otherwise. *)
Theorem bloch_vec_agrees_with_circuit (received : list Z) (x : Z) :
  received !! 0 = Some x → is_bit x →
  (bloch_vec received = Ok [0; 0; -1]%Z
   ↔ 0 ∈ quantum_visualization_gates received)
  ∧ (bloch_vec received = Ok [0; 0; 1]%Z
     ↔ 0 ∉ quantum_visualization_gates received).
Proof.
  intros Hx Hbit. rewrite quantum_visualization_gates_elem.
  unfold bloch_vec, py_get. rewrite Hx. simpl.
  destruct Hbit as [-> | ->]; simpl; split; split; try done; congruence.
Qed.

Lemma bloch_vec_agrees_with_circuit_witness :
  (bloch_vec fixture_received = Ok [0; 0; -1]%Z
   ↔ 0 ∈ quantum_visualization_gates fixture_received)
  ∧ (bloch_vec fixture_received = Ok [0; 0; 1]%Z
     ↔ 0 ∉ quantum_visualization_gates fixture_received).
Proof.
  apply (bloch_vec_agrees_with_circuit fixture_received 1%Z);
    [reflexivity|unfold is_bit; lia].
Defined.

(** X21.  When the first element is neither 0 nor 1, which the parser
    lets through for the digits 2 to 9, the display and the circuit
    disagree: the Bloch vector points to the south pole although qubit 0
    carries no X gate.  On an empty vector choosing the Bloch vector
    raises [IndexError]. *)
Theorem bloch_vec_disagrees_off_bits (received : list Z) (x : Z) :
  received !! 0 = Some x → ¬ is_bit x →
  bloch_vec received = Ok [0; 0; -1]%Z
  ∧ (0 ∉ quantum_visualization_gates received)
  ∧ bloch_vec [] = IndexError.
Proof.
  intros Hx Hbit. rewrite quantum_visualization_gates_elem.
  unfold bloch_vec at 1, py_get. rewrite Hx. simpl.
  destruct (Z.eqb_spec x 0) as [->|H0]; [destruct Hbit; by left|].
  split; [done|]. split; [|done]. intros [= ->]. apply Hbit. by right.
Qed.

Lemma bloch_vec_disagrees_off_bits_witness :
  bloch_vec [2; 0; 1]%Z = Ok [0; 0; -1]%Z
  ∧ (0 ∉ quantum_visualization_gates [2; 0; 1]%Z)
  ∧ bloch_vec [] = IndexError.
Proof.
  apply (bloch_vec_disagrees_off_bits [2; 0; 1]%Z 2%Z);
    [reflexivity|unfold is_bit; lia].
Defined.
